(** * Text-patch scripts of the marketing repository

    Each script of the repository reads one file into a Python [str] (or a
    list of lines), edits it with [str.replace], [re.sub] or [list.insert],
    and writes the result back.  This development embeds the scripts as
    functions on text buffers and proves the properties the specification
    states about them.

    A document is the text the script holds in memory between [read] and
    [write]: a sequence of Unicode code points.  Decoding, newline
    translation and the file system are outside the model. *)

From Stdlib Require Import String Ascii.
From Stdlib Require Import List NArith Arith Lia Bool.
Import ListNotations.
Local Open Scope list_scope.

(** ** Python strings and lists *)

Definition char := N.
Bind Scope N_scope with char.
Definition str := list char.

(** An ASCII literal as a sequence of code points. *)
Definition lit (s : string) : str := map N_of_ascii (list_ascii_of_string s).

Definition dq : str := [34%N].
Definition nl : str := [10%N].

(** [s.startswith(w)] *)
Fixpoint startswith (w s : str) : bool :=
  match w, s with
  | [], _ => true
  | _ :: _, [] => false
  | a :: w', b :: s' => N.eqb a b && startswith w' s'
  end.

(** [w in s] *)
Fixpoint str_in (w s : str) : bool :=
  startswith w s ||
  match s with
  | [] => false
  | _ :: s' => str_in w s'
  end.

(** Number of positions of [s] at which an occurrence of [w] starts. *)
Fixpoint occurrences (w s : str) : nat :=
  (if startswith w s then 1 else 0) +
  match s with
  | [] => 0
  | _ :: s' => occurrences w s'
  end.

(** The scan of [str.replace] for a non-empty [old]: left to right, an
    occurrence found at the current position is replaced and the scan
    resumes after it ([skip] counts the characters of the occurrence still
    to pass over), so the occurrences replaced do not overlap. *)
Fixpoint replace_from (old new : str) (skip : nat) (s : str) : str :=
  match s with
  | [] => []
  | c :: s' =>
      match skip with
      | S k => replace_from old new k s'
      | O =>
          if startswith old s
          then new ++ replace_from old new (length old - 1) s'
          else c :: replace_from old new 0 s'
      end
  end.

(** [s.replace(old, new)]; an empty [old] matches before every character and
    at the end. *)
Definition str_replace (s old new : str) : str :=
  match old with
  | [] => new ++ flat_map (fun c => c :: new) s
  | _ :: _ => replace_from old new 0 s
  end.

(** [s.split(sep)] for a one-character separator. *)
Fixpoint str_split (sep : char) (s : str) : list str :=
  match s with
  | [] => [[]]
  | c :: s' =>
      if N.eqb c sep then [] :: str_split sep s'
      else match str_split sep s' with
           | [] => [[c]]
           | l :: ls => (c :: l) :: ls
           end
  end.

(** [sep.join(l)] *)
Fixpoint str_join (sep : str) (l : list str) : str :=
  match l with
  | [] => []
  | x :: l' =>
      match l' with
      | [] => x
      | _ :: _ => x ++ sep ++ str_join sep l'
      end
  end.

(** [l.insert(i, x)] for [i >= 0]: an index past the end appends. *)
Definition list_insert {A : Type} (i : nat) (x : A) (l : list A) : list A :=
  firstn i l ++ x :: skipn i l.

(** [f.readlines()] on the text of the file: the lines keep their
    terminator, the last one may have none. *)
Fixpoint readlines (s : str) : list str :=
  match s with
  | [] => []
  | c :: s' =>
      if N.eqb c 10 then [c] :: readlines s'
      else match readlines s' with
           | [] => [[c]]
           | l :: ls => (c :: l) :: ls
           end
  end.

(** [f.writelines(lines)] *)
Definition writelines (lines : list str) : str := concat lines.

(** What a run of a script leaves behind: the text written to the file (if
    the script reached a write), the lines printed, and whether it ended
    with an uncaught exception. *)
Record outcome : Type := Outcome {
  written : option str;
  printed : list str;
  raised : bool
}.

(** The file after the run. *)
Definition file_after (before : str) (o : outcome) : str :=
  match written o with
  | Some c => c
  | None => before
  end.

(** ** fix-categories.py *)

Module FixCategories.

Definition old_romance : str := lit "category: 'romance'".
Definition new_romance : str := lit "category: 'Contemporary'".
Definition old_drama : str := lit "category: 'drama'".
Definition new_drama : str := lit "category: 'Billionaire'".

Definition transform (content : str) : str :=
  let content := str_replace content old_romance new_romance in
  let content := str_replace content old_drama new_drama in
  content.

Definition run (file : str) : outcome :=
  {| written := Some (transform file);
     printed := [[9989%N] ++ lit " Fixed all category values"];
     raised := false |}.

End FixCategories.

(** ** add-revenue-router.py *)

Module AddRevenueRouter.

Definition old_import : str :=
  lit "import searchAdsRouter from " ++ dq ++ lit "./api/searchAds.js" ++ dq ++ lit ";" ++ nl ++
  lit "import storageService".

Definition new_import : str :=
  lit "import searchAdsRouter from " ++ dq ++ lit "./api/searchAds.js" ++ dq ++ lit ";" ++ nl ++
  lit "import revenueRouter from " ++ dq ++ lit "./api/revenue.js" ++ dq ++ lit ";" ++ nl ++
  lit "import storageService".

Definition old_route : str :=
  lit "app.use(" ++ dq ++ lit "/api/searchAds" ++ dq ++ lit ", searchAdsRouter);".

Definition new_route : str :=
  lit "app.use(" ++ dq ++ lit "/api/searchAds" ++ dq ++ lit ", searchAdsRouter);" ++ nl ++
  lit "app.use(" ++ dq ++ lit "/api/revenue" ++ dq ++ lit ", revenueRouter);".

(** The route directive alone: [content.replace(old_route, new_route)]. *)
Definition route_directive (content : str) : str :=
  str_replace content old_route new_route.

Definition transform (content : str) : str :=
  let content := str_replace content old_import new_import in
  let content := route_directive content in
  content.

Definition run (file : str) : outcome :=
  {| written := Some (transform file);
     printed := [[9989%N] ++ lit " Added revenue router to server.js"];
     raised := false |}.

End AddRevenueRouter.

(** ** add-suggestions-state.py *)

Module AddSuggestionsState.

Definition insert_at : nat := 574.

Definition new_line : str :=
  lit "  const [suggestionsData, setSuggestionsData] = useState(null);" ++ nl.

(** [lines.insert(insert_at, ...)] *)
Definition transform_lines (lines : list str) : list str :=
  list_insert insert_at new_line lines.

Definition transform (file : str) : str :=
  writelines (transform_lines (readlines file)).

Definition run (file : str) : outcome :=
  {| written := Some (transform file);
     printed := [lit "Added suggestions state at line 575"];
     raised := false |}.

End AddSuggestionsState.

(** ** add_helpers.py *)

Module AddHelpers.

Definition marker : str :=
  lit "  const handleVideoPreview = (post) => {".

Definition helper_code : str :=
  str_join nl
    [ [];
      lit "  // Helper function to format scheduled time with countdown";
      lit "  const formatScheduledTime = (dateString) => {";
      lit "    const date = new Date(dateString);";
      lit "    const now = new Date();";
      lit "    const diffMs = date - now;";
      [];
      lit "    if (diffMs < 0) {";
      lit "      return {";
      lit "        formatted: date.toLocaleString('en-US', {";
      lit "          month: 'short',";
      lit "          day: 'numeric',";
      lit "          year: 'numeric',";
      lit "          hour: 'numeric',";
      lit "          minute: '2-digit',";
      lit "          hour12: true";
      lit "        }),";
      lit "        countdown: 'Past due',";
      lit "        isPast: true";
      lit "      };";
      lit "    }";
      [];
      lit "    const diffDays = Math.floor(diffMs / (1000 * 60 * 60 * 24));";
      lit "    const diffHours = Math.floor((diffMs % (1000 * 60 * 60 * 24)) / (1000 * 60 * 60));";
      lit "    const diffMinutes = Math.floor((diffMs % (1000 * 60 * 60)) / (1000 * 60));";
      [];
      lit "    let countdownText = '';";
      lit "    if (diffDays > 0) {";
      lit "      countdownText = diffDays + 'd ' + diffHours + 'h ' + diffMinutes + 'm';";
      lit "    } else if (diffHours > 0) {";
      lit "      countdownText = diffHours + 'h ' + diffMinutes + 'm';";
      lit "    } else if (diffMinutes > 0) {";
      lit "      countdownText = diffMinutes + ' minutes';";
      lit "    } else {";
      lit "      countdownText = 'Less than 1 minute';";
      lit "    }";
      [];
      lit "    return {";
      lit "      formatted: date.toLocaleString('en-US', {";
      lit "        month: 'short',";
      lit "        day: 'numeric',";
      lit "        year: 'numeric',";
      lit "        hour: 'numeric',";
      lit "        minute: '2-digit',";
      lit "        hour12: true";
      lit "      }),";
      lit "      countdown: countdownText,";
      lit "      isPast: false";
      lit "    };";
      lit "  };";
      [];
      lit "  const getTimezone = () => {";
      lit "    const date = new Date();";
      lit "    const abbreviation = date.toLocaleTimeString('en-US', { timeZoneName: 'short' }).split(' ')[2];";
      lit "    return abbreviation || 'Local Time';";
      lit "  };";
      [];
      lit "  const handleStartReschedule = () => {";
      lit "    setRescheduleMode(true);";
      lit "    const defaultTime = selectedVideo.scheduledAt || new Date(Date.now() + 3600000).toISOString();";
      lit "    setNewScheduledTime(new Date(defaultTime).toISOString().slice(0, 16));";
      lit "  };";
      [];
      lit "  const handleCancelReschedule = () => {";
      lit "    setRescheduleMode(false);";
      lit "    setNewScheduledTime('');";
      lit "  };";
      [];
      lit "  const handleConfirmReschedule = async () => {";
      lit "    if (!newScheduledTime) return;";
      [];
      lit "    try {";
      lit "      const response = await fetch('http://localhost:3003/api/content/' + selectedVideo._id + '/schedule', {";
      lit "        method: 'PATCH',";
      lit "        headers: { 'Content-Type': 'application/json' },";
      lit "        body: JSON.stringify({ scheduledAt: new Date(newScheduledTime).toISOString() })";
      lit "      });";
      [];
      lit "      if (response.ok) {";
      lit "        setSelectedVideo({ ...selectedVideo, scheduledAt: new Date(newScheduledTime).toISOString() });";
      lit "        fetchPosts();";
      lit "        setRescheduleMode(false);";
      lit "        setNewScheduledTime('');";
      lit "        alert('Scheduled time updated!');";
      lit "      } else {";
      lit "        const error = await response.json();";
      lit "        alert('Failed to update: ' + (error.message || 'Unknown error'));";
      lit "      }";
      lit "    } catch (error) {";
      lit "      console.error('Error:', error);";
      lit "      setSelectedVideo({ ...selectedVideo, scheduledAt: new Date(newScheduledTime).toISOString() });";
      lit "      setRescheduleMode(false);";
      lit "      setNewScheduledTime('');";
      lit "      alert('Updated locally');";
      lit "    }";
      lit "  };";
      [];
      lit "  // Update countdown every minute";
      lit "  useEffect(() => {";
      lit "    if (!selectedVideo || !selectedVideo.scheduledAt) return;";
      [];
      lit "    const updateCountdown = () => {";
      lit "      const timeInfo = formatScheduledTime(selectedVideo.scheduledAt);";
      lit "      setCountdown(timeInfo.countdown);";
      lit "    };";
      [];
      lit "    updateCountdown();";
      lit "    const interval = setInterval(updateCountdown, 60000);";
      [];
      lit "    return () => clearInterval(interval);";
      lit "  }, [selectedVideo]);";
      [];
      [] ].

Definition run (content : str) : outcome :=
  if str_in marker content
  then {| written := Some (str_replace content marker (helper_code ++ marker));
          printed := [[9989%N] ++ lit " Helper functions added successfully"];
          raised := false |}
  else {| written := None;
          printed := [[10060%N] ++ lit " Marker not found"];
          raised := false |}.

End AddHelpers.

(** ** The fragment of Python's [re] module the scripts use

    Patterns are made of literal characters, escaped punctuation, [\s],
    negated sets [[^...]], the greedy quantifiers [*] and [+] on a
    one-character item, and capture groups.  [compile] parses the pattern
    text as written in the script, so that a pattern [re.compile] refuses is
    refused here too. *)

Module Re.

(** One-character items. *)
Inductive cset : Type :=
| One (c : char)
| Space
| NoneOf (cs : list char).

#[warnings="-register-all"]
Inductive node : Type :=
| Chr (k : cset)
| Star (k : cset)
| Plus (k : cset)
| Group (i : nat) (body : list node).

Inductive error : Type :=
| missing_paren          (* missing ), unterminated subpattern *)
| unbalanced_paren       (* unbalanced parenthesis *)
| unterminated_set       (* unterminated character set *)
| bad_escape             (* bad escape (end of pattern) *)
| invalid_group          (* invalid group reference *)
| outside_fragment.      (* valid or not, the syntax is not modelled *)

Inductive result (A : Type) : Type :=
| Ok (a : A)
| Err (e : error).
Arguments Ok {A} a.
Arguments Err {A} e.

Definition bind {A B : Type} (x : result A) (f : A -> result B) : result B :=
  match x with
  | Ok a => f a
  | Err e => Err e
  end.

(** [str.isspace] on one code point, which is what [\s] tests in a [str]
    pattern. *)
Definition is_space (c : char) : bool :=
  ((9 <=? c) && (c <=? 13) || (28 <=? c) && (c <=? 32) ||
   (c =? 133) || (c =? 160) || (c =? 5760) ||
   (8192 <=? c) && (c <=? 8202) ||
   (c =? 8232) || (c =? 8233) || (c =? 8239) || (c =? 8287) ||
   (c =? 12288))%N.

Definition is_digit (c : char) : bool := ((48 <=? c) && (c <=? 57))%N.

Definition is_alnum (c : char) : bool :=
  (is_digit c || (65 <=? c) && (c <=? 90) || (97 <=? c) && (c <=? 122))%N.

Definition mem (k : cset) (c : char) : bool :=
  match k with
  | One a => N.eqb a c
  | Space => is_space c
  | NoneOf cs => negb (existsb (N.eqb c) cs)
  end.

(** *** Parsing a pattern *)

(** The members of a negated set, up to the closing bracket. *)
Fixpoint parse_set (p : str) : result (list char * str) :=
  match p with
  | [] => Err unterminated_set
  | c :: p' =>
      if N.eqb c 93 then Ok ([], p')
      else if N.eqb c 92 || N.eqb c 45 || N.eqb c 91 then Err outside_fragment
      else bind (parse_set p') (fun '(cs, rest) => Ok (c :: cs, rest))
  end.

(** A one-character item at the head of the pattern. *)
Definition parse_item (p : str) : result (cset * str) :=
  match p with
  | [] => Err outside_fragment
  | c :: p' =>
      if N.eqb c 92 then                                  (* backslash *)
        match p' with
        | [] => Err bad_escape
        | e :: rest =>
            if N.eqb e 115 then Ok (Space, rest)          (* \s *)
            else if is_alnum e then Err outside_fragment
            else Ok (One e, rest)
        end
      else if N.eqb c 91 then                             (* [ *)
        match p' with
        | 94%N :: m :: p'' =>                             (* [^ and a first member *)
            if N.eqb m 92 || N.eqb m 45 || N.eqb m 91 then Err outside_fragment
            else bind (parse_set p'') (fun '(cs, rest) => Ok (NoneOf (m :: cs), rest))
        | [94%N] => Err unterminated_set
        | _ => Err outside_fragment
        end
      else if N.eqb c 123 then                            (* { *)
        match p' with
        | d :: _ => if is_digit d || N.eqb d 44 then Err outside_fragment
                    else Ok (One c, p')
        | [] => Ok (One c, p')
        end
      else if N.eqb c 42 || N.eqb c 43 || N.eqb c 63 || N.eqb c 124 ||
              N.eqb c 46 || N.eqb c 94 || N.eqb c 36
      then Err outside_fragment                           (* * + ? | . ^ $ *)
      else Ok (One c, p')
  end.

Definition quantifier_next (p : str) : bool :=
  match p with
  | c :: _ => N.eqb c 42 || N.eqb c 43 || N.eqb c 63 || N.eqb c 123
  | [] => false
  end.

(** A sequence of items, up to a closing parenthesis or the end of the
    pattern; [g] is the number the next group opened will get. *)
Fixpoint parse_seq (fuel : nat) (p : str) (g : nat) : result (list node * str * nat) :=
  match fuel with
  | O => Err outside_fragment
  | S fuel' =>
      match p with
      | [] => Ok ([], [], g)
      | c :: p' =>
          if N.eqb c 41 then Ok ([], p, g)                (* ) *)
          else if N.eqb c 40 then                         (* ( *)
            bind (parse_seq fuel' p' (S g)) (fun '(body, rest, g') =>
              match rest with
              | [] => Err missing_paren
              | _ :: rest' =>
                  if quantifier_next rest' then Err outside_fragment
                  else bind (parse_seq fuel' rest' g') (fun '(ns, rest'', g'') =>
                         Ok (Group g body :: ns, rest'', g''))
              end)
          else
            bind (parse_item p) (fun '(k, rest) =>
              match rest with
              | 42%N :: rest' =>
                  bind (parse_seq fuel' rest' g) (fun '(ns, rest'', g') =>
                    Ok (Star k :: ns, rest'', g'))
              | 43%N :: rest' =>
                  bind (parse_seq fuel' rest' g) (fun '(ns, rest'', g') =>
                    Ok (Plus k :: ns, rest'', g'))
              | _ =>
                  bind (parse_seq fuel' rest g) (fun '(ns, rest'', g') =>
                    Ok (Chr k :: ns, rest'', g'))
              end)
      end
  end.

(** [re.compile(p)]: the whole pattern is group 0; the second component is
    the number of capture groups. *)
Definition compile (p : str) : result (node * nat) :=
  bind (parse_seq (S (length p)) p 1) (fun '(ns, rest, g) =>
    match rest with
    | [] => Ok (Group 0 ns, g - 1)
    | _ :: _ => Err unbalanced_paren
    end).

(** *** Replacement templates *)

Inductive titem : Type :=
| TLit (c : char)
| TRef (i : nat).

(** The escapes of a template: a backslash and a digit is a group
    reference, [\n] a newline, a doubled backslash one backslash. *)
Fixpoint parse_template (t : str) : result (list titem) :=
  match t with
  | [] => Ok []
  | c :: t' =>
      if N.eqb c 92 then
        match t' with
        | [] => Err bad_escape
        | e :: t'' =>
            if is_digit e then
              if N.eqb e 48 || match t'' with d :: _ => is_digit d | [] => false end
              then Err outside_fragment
              else bind (parse_template t'') (fun items => Ok (TRef (N.to_nat (e - 48)) :: items))
            else if N.eqb e 110 then
              bind (parse_template t'') (fun items => Ok (TLit 10 :: items))
            else if N.eqb e 92 then
              bind (parse_template t'') (fun items => Ok (TLit 92 :: items))
            else Err outside_fragment
        end
      else bind (parse_template t') (fun items => Ok (TLit c :: items))
  end.

Definition refs_ok (groups : nat) (t : list titem) : bool :=
  forallb (fun i => match i with TLit _ => true | TRef n => n <=? groups end) t.

(** *** Matching *)

(** The text captured by each group that took part in the match. *)
Definition captures := list (nat * str).

(** A group that did not take part expands to the empty string. *)
Fixpoint group (i : nat) (cs : captures) : str :=
  match cs with
  | [] => []
  | (j, v) :: cs' => if Nat.eqb i j then v else group i cs'
  end.

(** Length of the longest run of members of [k] at the head of [s]. *)
Fixpoint span (k : cset) (s : str) : nat :=
  match s with
  | c :: s' => if mem k c then S (span k s') else 0
  | [] => 0
  end.

Section Matcher.

Variable A : Type.

(** A greedy quantifier gives back one character at a time, down to [lo],
    until the rest of the pattern matches. *)
Fixpoint backtrack (lo n : nat) (s : str) (k : str -> option A) : option A :=
  match k (skipn n s) with
  | Some r => Some r
  | None =>
      match n with
      | O => None
      | S n' => if n' <? lo then None else backtrack lo n' s k
      end
  end.

(** [m r s cs k]: match [r] at the head of [s], then continue with [k] on
    what is left. *)
Fixpoint m (r : node) (s : str) (cs : captures)
    (k : str -> captures -> option A) {struct r} : option A :=
  match r with
  | Chr c =>
      match s with
      | x :: s' => if mem c x then k s' cs else None
      | [] => None
      end
  | Star c => backtrack 0 (span c s) s (fun s' => k s' cs)
  | Plus c =>
      if Nat.eqb (span c s) 0 then None
      else backtrack 1 (span c s) s (fun s' => k s' cs)
  | Group i body =>
      (fix seq (rs : list node) (s1 : str) (cs1 : captures)
           (k1 : str -> captures -> option A) {struct rs} : option A :=
         match rs with
         | [] => k1 s1 cs1
         | r' :: rs' => m r' s1 cs1 (fun s2 cs2 => seq rs' s2 cs2 k1)
         end)
        body s cs
        (fun s1 cs1 => k s1 ((i, firstn (length s - length s1) s) :: cs1))
  end.

End Matcher.

(** A match at the head of [s]: the captures and the text after it. *)
Definition match_here (r : node) (s : str) : option (captures * str) :=
  m (captures * str) r s [] (fun rest cs => Some (cs, rest)).

(** The leftmost match: the text before it, the captures, the text after. *)
Fixpoint search_from (r : node) (before : str) (s : str) : option (str * captures * str) :=
  match match_here r s with
  | Some (cs, rest) => Some (rev before, cs, rest)
  | None =>
      match s with
      | [] => None
      | c :: s' => search_from r (c :: before) s'
      end
  end.

Definition search (r : node) (s : str) : option (str * captures * str) :=
  search_from r [] s.

Definition expand (t : list titem) (cs : captures) : str :=
  flat_map (fun i => match i with TLit c => [c] | TRef n => group n cs end) t.

(** The loop of [sub]: [limit] is [None] for all matches ([count=0]) or the
    number of replacements still allowed.  After an empty match the next
    character is copied before the search resumes. *)
Fixpoint sub_loop (fuel : nat) (r : node) (t : list titem)
    (limit : option nat) (s : str) : str :=
  match fuel with
  | O => s
  | S fuel' =>
      match limit with
      | Some O => s
      | _ =>
          match search r s with
          | None => s
          | Some (before, cs, rest) =>
              let limit' := option_map Nat.pred limit in
              before ++ expand t cs ++
              match group 0 cs, rest with
              | [], c :: rest' => c :: sub_loop fuel' r t limit' rest'
              | [], [] => []
              | _ :: _, _ => sub_loop fuel' r t limit' rest
              end
          end
      end
  end.

(** [re.sub(pattern, repl, s, count)] *)
Definition sub (pattern repl s : str) (count : nat) : result str :=
  bind (compile pattern) (fun '(r, groups) =>
  bind (parse_template repl) (fun t =>
    if refs_ok groups t
    then Ok (sub_loop (S (length s)) r t
               (match count with O => None | S _ => Some count end) s)
    else Err invalid_group)).

End Re.

Notation "x <- e ;; k" := (Re.bind e (fun x => k))
  (at level 61, e at next level, right associativity).

(** ** edit-chat.py *)

Module EditChat.

Definition import_line : str :=
  lit "import { createTodosFromAIRecommendations } from " ++ dq ++
  lit "../utils/todoAutoCreator.js" ++ dq ++ lit ";".

Definition pattern : str :=
  lit "(savedConversation = \{[^}]+\}\s*\}\s*" ++ lit ")".

Definition replacement : str :=
  str_join nl
    [ lit "\1";
      lit "    // Auto-create todos from AI recommendations";
      lit "    let autoCreatedTodos = [];";
      lit "    try {";
      lit "      autoCreatedTodos = await createTodosFromAIRecommendations(";
      lit "        aiResponse,";
      lit "        savedConversation?.id || conversationId,";
      lit "        status";
      lit "      );";
      lit "    } catch (todoError) {";
      lit "      console.error(" ++ dq ++ lit "Error auto-creating todos:" ++ dq ++ lit ", todoError);";
      lit "      // Don't fail the chat response if todo creation fails";
      lit "    }";
      [] ].

Definition old_response : str :=
  str_join nl
    [ lit "res.json({";
      lit "      success: true,";
      lit "      response: {";
      lit "        role: aiResponse.role,";
      lit "        content: aiResponse.content,";
      lit "        timestamp: aiResponse.timestamp,";
      lit "        proposal: aiResponse.proposal || null";
      lit "      },";
      lit "      conversationId: savedConversation?.id," ].

Definition new_response : str :=
  str_join nl
    [ lit "res.json({";
      lit "      success: true,";
      lit "      response: {";
      lit "        role: aiResponse.role,";
      lit "        content: aiResponse.content,";
      lit "        timestamp: aiResponse.timestamp,";
      lit "        proposal: aiResponse.proposal || null";
      lit "      },";
      lit "      conversationId: savedConversation?.id,";
      lit "      autoCreatedTodos: autoCreatedTodos,";
      lit "      autoCreatedTodosCount: autoCreatedTodos.length," ].

(** The first guarded block: the import. *)
Definition add_import (content : str) : str * list str :=
  if str_in (lit "createTodosFromAIRecommendations") content
  then (content, [[9989%N] ++ lit " Import already exists"])
  else
    let lines := str_split 10 content in
    let lines := list_insert 2 import_line lines in
    (str_join nl lines, [[9989%N] ++ lit " Added import statement"]).

(** The second guarded block: the auto-todo code and the response fields. *)
Definition add_todos (content : str) : Re.result (str * list str) :=
  if str_in (lit "autoCreatedTodos") content
  then Re.Ok (content, [[9989%N] ++ lit " Auto-todo code already exists"])
  else
    content <- Re.sub pattern replacement content 1 ;;
    let content := str_replace content old_response new_response in
    Re.Ok (content,
           [[9989%N] ++ lit " Added auto-todo creation code";
            [9989%N] ++ lit " Modified response to include autoCreatedTodos"]).

(** The content the script computes from the content it read. *)
Definition transform (content : str) : Re.result str :=
  r <- add_todos (fst (add_import content)) ;;
  Re.Ok (fst r).

Definition run (file : str) : outcome :=
  let (content, out1) := add_import file in
  match add_todos content with
  | Re.Ok (content, out2) =>
      {| written := Some content;
         printed := out1 ++ out2 ++
                    [nl ++ [9989%N] ++
                     lit " Successfully modified chat.js to add auto-todo creation!"];
         raised := false |}
  | Re.Err _ =>
      {| written := None; printed := out1; raised := true |}
  end.

End EditChat.

(** ** rename-components.py *)

Module RenameComponents.

Definition replacements : list (str * str) :=
  [ (lit "(1999:)(const CompetitorCard = styled\.div`)",
     lit "\1const CompetitorKeywordCard = styled.div`");
    (lit "(2012:)(const CompetitorCardHeader = styled\.div`)",
     lit "\1const CompetitorKeywordCardHeader = styled.div`");
    (lit "(2019:)(const CompetitorName = styled\.h4`)",
     lit "\1const CompetitorKeywordName = styled.h4`");
    (lit "(2025:)(const CompetitorBadge = styled\.span`)",
     lit "\1const CompetitorKeywordBadge = styled.span`");
    (lit "(2038:)(const CompetitorMetric = styled\.div`)",
     lit "\1const CompetitorKeywordMetric = styled.div`");
    (lit "(2049:)(const CompetitorMetricLabel = styled\.span`)",
     lit "\1const CompetitorKeywordMetricLabel = styled.span`");
    (lit "(2054:)(const CompetitorMetricValue = styled\.span`)",
     lit "\1const CompetitorKeywordMetricValue = styled.span`") ].

(** The loop over [replacements]. *)
Fixpoint apply_replacements (rs : list (str * str)) (content_new : str) : Re.result str :=
  match rs with
  | [] => Re.Ok content_new
  | (pattern, replacement) :: rs' =>
      content_new <- Re.sub pattern replacement content_new 0 ;;
      apply_replacements rs' content_new
  end.

(** The replacement strings of the JSX substitutions are not raw literals:
    in them the escape made of a backslash and the digit 1 is the character
    U+0001. *)
Definition jsx_usage (content_new : str) : Re.result str :=
  content_new <- Re.sub (lit "<CompetitorCard([^>]*key={index}")
                        (lit "<CompetitorKeywordCard" ++ [1%N]) content_new 0 ;;
  content_new <- Re.sub (lit "</CompetitorCard>")
                        (lit "</CompetitorKeywordCard>") content_new 0 ;;
  content_new <- Re.sub (lit "<CompetitorCardHeader>")
                        (lit "<CompetitorKeywordCardHeader>") content_new 0 ;;
  content_new <- Re.sub (lit "</CompetitorCardHeader>")
                        (lit "</CompetitorKeywordCardHeader>") content_new 0 ;;
  content_new <- Re.sub (lit "<CompetitorName>")
                        (lit "<CompetitorKeywordName>") content_new 0 ;;
  content_new <- Re.sub (lit "</CompetitorName>")
                        (lit "</CompetitorKeywordName>") content_new 0 ;;
  content_new <- Re.sub (lit "<CompetitorBadge([^>]*>)")
                        (lit "<CompetitorKeywordBadge" ++ [1%N]) content_new 0 ;;
  content_new <- Re.sub (lit "</CompetitorBadge>")
                        (lit "</CompetitorKeywordBadge>") content_new 0 ;;
  content_new <- Re.sub (lit "<CompetitorMetric>")
                        (lit "<CompetitorKeywordMetric>") content_new 0 ;;
  content_new <- Re.sub (lit "</CompetitorMetric>")
                        (lit "</CompetitorKeywordMetric>") content_new 0 ;;
  content_new <- Re.sub (lit "<CompetitorMetricLabel([^>]*" ++ lit ")>")
                        (lit "<CompetitorKeywordMetricLabel" ++ [1%N] ++ lit ">") content_new 0 ;;
  content_new <- Re.sub (lit "</CompetitorMetricLabel>")
                        (lit "</CompetitorKeywordMetricLabel>") content_new 0 ;;
  content_new <- Re.sub (lit "<CompetitorMetricValue([^>]*" ++ lit ")>")
                        (lit "<CompetitorKeywordMetricValue" ++ [1%N] ++ lit ">") content_new 0 ;;
  content_new <- Re.sub (lit "</CompetitorMetricValue>")
                        (lit "</CompetitorKeywordMetricValue>") content_new 0 ;;
  Re.Ok content_new.

Definition transform (content : str) : Re.result str :=
  content_new <- apply_replacements replacements content ;;
  jsx_usage content_new.

Definition run (file : str) : outcome :=
  match transform file with
  | Re.Ok content_new =>
      {| written := Some content_new;
         printed := [lit "Components renamed successfully!"];
         raised := false |}
  | Re.Err _ =>
      {| written := None; printed := []; raised := true |}
  end.

End RenameComponents.

(** ** Vocabulary of the statements *)

(** One of the two words is a prefix of the other: they can be read at the
    same position of some text. *)
Definition comparable (a b : str) : bool := startswith a b || startswith b a.

(** No occurrence of [b] can begin at a position covered by an occurrence
    of [a], in any text. *)
Fixpoint clear_of (a b : str) : bool :=
  match a with
  | [] => true
  | _ :: a' => negb (comparable a b) && clear_of a' b
  end.

(** The same, except at the first position of [a]. *)
Definition clear_after (a b : str) : bool := clear_of (tl a) b.

(** [us] are the stretches of a text between the occurrences of [old] that a
    left-to-right scan finds: in every stretch but the last, followed by
    [old], the only occurrence of [old] is the one that ends it; the last
    stretch has none. *)
Fixpoint leftmost_split (old : str) (us : list str) : Prop :=
  match us with
  | [] => False
  | u :: us' =>
      match us' with
      | [] => str_in old u = false
      | _ :: _ => occurrences old (u ++ old) = 1 /\ leftmost_split old us'
      end
  end.

(** A text cut into the characters an edit keeps and the spans it swaps. *)
Inductive piece : Type :=
| Keep (c : char)
| Swap (old new : str).

Definition src (ps : list piece) : str :=
  flat_map (fun p => match p with Keep c => [c] | Swap old _ => old end) ps.

Definition dst (ps : list piece) : str :=
  flat_map (fun p => match p with Keep c => [c] | Swap _ new => new end) ps.

(** Every swapped span is an occurrence of a locator of [rules], swapped for
    the payload of that locator. *)
Definition swaps_in (rules : list (str * str)) (ps : list piece) : Prop :=
  Forall (fun p => match p with
                   | Keep _ => True
                   | Swap old new => In (old, new) rules
                   end) ps.

(** What the route directive of add-revenue-router.py puts after its
    locator: a line break and the revenue route. *)
Definition inserted_route : str :=
  nl ++ lit "app.use(" ++ dq ++ lit "/api/revenue" ++ dq ++ lit ", revenueRouter);".

(** A pattern and a template that [re.sub] accepts. *)
Definition accepted (pt : str * str) : bool :=
  match Re.compile (fst pt), Re.parse_template (snd pt) with
  | Re.Ok (_, groups), Re.Ok t => Re.refs_ok groups t
  | _, _ => false
  end.

(** The text is empty or ends with a line break. *)
Fixpoint terminated (s : str) : bool :=
  match s with
  | [] => true
  | c :: s' =>
      match s' with
      | [] => N.eqb c 10
      | _ :: _ => terminated s'
      end
  end.

(** ** Sample documents *)

(** A server file that holds the locator line of the route directive twice. *)
Definition doc_two_routes : str :=
  AddRevenueRouter.old_route ++ nl ++ AddRevenueRouter.old_route.

(** A server file that holds it once. *)
Definition doc_server : str :=
  lit "const app = express();" ++ nl ++ AddRevenueRouter.old_route ++ nl.

(** A file with none of the locators. *)
Definition doc_plain : str := lit "export default function App() {}" ++ nl.

(** A file whose handler takes another parameter than the marker says. *)
Definition doc_other_handler : str :=
  lit "  const handleVideoPreview = (item) => {" ++ nl.

(** A file of 600 lines. *)
Definition doc_600_lines : str := concat (repeat (lit "// line" ++ nl) 600).

(** A file of two lines, the last one without a line break. *)
Definition doc_two_lines : str :=
  lit "import React from 'react';" ++ nl ++ lit "export default App;".

(** A badge with an attribute. *)
Definition doc_badge : str :=
  lit "<CompetitorBadge variant=" ++ dq ++ lit "top" ++ dq
  ++ lit ">Leader</CompetitorBadge>".

(** A metric label with an attribute. *)
Definition doc_label : str :=
  lit "<CompetitorMetricLabel title=" ++ dq ++ lit "rate" ++ dq
  ++ lit ">CTR</CompetitorMetricLabel>".

(** A chat endpoint before the edits of edit-chat.py. *)
Definition doc_chat : str :=
  str_join nl
    [ lit "import express from " ++ dq ++ lit "express" ++ dq ++ lit ";";
      lit "import chatService from " ++ dq ++ lit "../services/chat.js" ++ dq ++ lit ";";
      lit "const router = express.Router();";
      lit "router.post(" ++ dq ++ lit "/message" ++ dq ++ lit ", async (req, res) => {";
      lit "    const aiResponse = await chatService.reply(req.body);";
      lit "    savedConversation = { id: conversationId, messages: all }";
      lit "    }";
      lit "    res.json({";
      lit "      success: true,";
      lit "      response: {";
      lit "        role: aiResponse.role,";
      lit "        content: aiResponse.content,";
      lit "        timestamp: aiResponse.timestamp,";
      lit "        proposal: aiResponse.proposal || null";
      lit "      },";
      lit "      conversationId: savedConversation?.id,";
      lit "    });";
      lit "});";
      [] ].

(** The same endpoint after them. *)
Definition doc_chat_patched : str :=
  str_join nl
    [ lit "import express from " ++ dq ++ lit "express" ++ dq ++ lit ";";
      lit "import chatService from " ++ dq ++ lit "../services/chat.js" ++ dq ++ lit ";";
      lit "import { createTodosFromAIRecommendations } from " ++ dq ++ lit "../utils/todoAutoCreator.js" ++ dq ++ lit ";";
      lit "const router = express.Router();";
      lit "router.post(" ++ dq ++ lit "/message" ++ dq ++ lit ", async (req, res) => {";
      lit "    const aiResponse = await chatService.reply(req.body);";
      lit "    savedConversation = { id: conversationId, messages: all }";
      lit "    }";
      lit "    ";
      lit "    // Auto-create todos from AI recommendations";
      lit "    let autoCreatedTodos = [];";
      lit "    try {";
      lit "      autoCreatedTodos = await createTodosFromAIRecommendations(";
      lit "        aiResponse,";
      lit "        savedConversation?.id || conversationId,";
      lit "        status";
      lit "      );";
      lit "    } catch (todoError) {";
      lit "      console.error(" ++ dq ++ lit "Error auto-creating todos:" ++ dq ++ lit ", todoError);";
      lit "      // Don't fail the chat response if todo creation fails";
      lit "    }";
      lit "res.json({";
      lit "      success: true,";
      lit "      response: {";
      lit "        role: aiResponse.role,";
      lit "        content: aiResponse.content,";
      lit "        timestamp: aiResponse.timestamp,";
      lit "        proposal: aiResponse.proposal || null";
      lit "      },";
      lit "      conversationId: savedConversation?.id,";
      lit "      autoCreatedTodos: autoCreatedTodos,";
      lit "      autoCreatedTodosCount: autoCreatedTodos.length,";
      lit "    });";
      lit "});";
      [] ].

(** ** More sample documents *)

(** A test file with three stories to fix. *)
Definition doc_stories : str :=
  str_join nl
    [ lit "{ title: 'A', category: 'romance' },";
      lit "{ title: 'B', category: 'drama' },";
      lit "{ title: 'C', category: 'romance' }";
      [] ].

(** A component that holds the marker of add_helpers.py. *)
Definition doc_library : str :=
  str_join nl
    [ lit "function ContentLibrary() {";
      AddHelpers.marker;
      lit "    setSelectedVideo(post);";
      lit "  };";
      lit "}";
      [] ].

(** ** Vocabulary for the regular expressions *)

(** The matcher of a sequence of nodes, as [Re.m] runs it inside a group. *)
Definition m_seq (A : Type) :
    list Re.node -> str -> Re.captures ->
    (str -> Re.captures -> option A) -> option A :=
  fix seq (rs : list Re.node) (s1 : str) (cs1 : Re.captures)
      (k1 : str -> Re.captures -> option A) {struct rs} : option A :=
    match rs with
    | [] => k1 s1 cs1
    | r' :: rs' => Re.m A r' s1 cs1 (fun s2 cs2 => seq rs' s2 cs2 k1)
    end.

(** The literal text with which every match of a node begins, and whether
    the node matches that text and nothing else. *)
Fixpoint lead (r : Re.node) : str * bool :=
  match r with
  | Re.Chr (Re.One c) => ([c], true)
  | Re.Chr _ => ([], false)
  | Re.Star _ => ([], false)
  | Re.Plus _ => ([], false)
  | Re.Group _ body =>
      (fix lead_seq (rs : list Re.node) : str * bool :=
         match rs with
         | [] => ([], true)
         | r' :: rs' =>
             match lead r' with
             | (l, true) =>
                 match lead_seq rs' with
                 | (l', full) => (l ++ l', full)
                 end
             | (l, false) => (l, false)
             end
         end) body
  end.

Fixpoint lead_seq (rs : list Re.node) : str * bool :=
  match rs with
  | [] => ([], true)
  | r' :: rs' =>
      match lead r' with
      | (l, true) =>
          match lead_seq rs' with
          | (l', full) => (l ++ l', full)
          end
      | (l, false) => (l, false)
      end
  end.

(** The captures a node that matches only its literal text adds. *)
Fixpoint lit_caps (r : Re.node) (cs : Re.captures) : Re.captures :=
  match r with
  | Re.Group i body =>
      (i, fst (lead r)) ::
      (fix go (rs : list Re.node) (cs1 : Re.captures) : Re.captures :=
         match rs with
         | [] => cs1
         | r' :: rs' => go rs' (lit_caps r' cs1)
         end) body cs
  | _ => cs
  end.

Fixpoint lit_caps_seq (rs : list Re.node) (cs : Re.captures) : Re.captures :=
  match rs with
  | [] => cs
  | r' :: rs' => lit_caps_seq rs' (lit_caps r' cs)
  end.

(** The nodes inside group 1 of the pattern of edit-chat.py: the literal
    text, then [[^}]+], a brace, blanks, a brace, blanks. *)
Definition chat_body : list Re.node :=
  map (fun c => Re.Chr (Re.One c)) (lit "savedConversation = {") ++
  [ Re.Plus (Re.NoneOf [125%N]); Re.Chr (Re.One 125%N); Re.Star Re.Space;
    Re.Chr (Re.One 125%N); Re.Star Re.Space ].

(** A file that names the import in a comment and holds nothing else of
    what edit-chat.py looks for. *)
Definition doc_comment_only : str :=
  lit "// TODO: call createTodosFromAIRecommendations after the reply" ++ nl.

(** The literal replacement that a substitution amounts to, when its
    pattern is made of literal characters and groups of them only: the
    text of the pattern, and the expansion of the template on the captures
    of that text. *)
Definition literal_rule (pt : str * str) : option (str * str) :=
  match Re.compile (fst pt), Re.parse_template (snd pt) with
  | Re.Ok (Re.Group 0 body, groups), Re.Ok t =>
      if snd (lead_seq body) && Re.refs_ok groups t
         && negb (Nat.eqb (length (fst (lead_seq body))) 0)
      then Some (fst (lead_seq body),
                 Re.expand t (lit_caps (Re.Group 0 body) []))
      else None
  | _, _ => None
  end.

(** The declarations that the loop of rename-components.py looks for, each
    with the line number its pattern asks for, and what it puts instead. *)
Definition declaration_renames : list (str * str) :=
  [ (lit "1999:const CompetitorCard = styled.div`",
     lit "1999:const CompetitorKeywordCard = styled.div`");
    (lit "2012:const CompetitorCardHeader = styled.div`",
     lit "2012:const CompetitorKeywordCardHeader = styled.div`");
    (lit "2019:const CompetitorName = styled.h4`",
     lit "2019:const CompetitorKeywordName = styled.h4`");
    (lit "2025:const CompetitorBadge = styled.span`",
     lit "2025:const CompetitorKeywordBadge = styled.span`");
    (lit "2038:const CompetitorMetric = styled.div`",
     lit "2038:const CompetitorKeywordMetric = styled.div`");
    (lit "2049:const CompetitorMetricLabel = styled.span`",
     lit "2049:const CompetitorKeywordMetricLabel = styled.span`");
    (lit "2054:const CompetitorMetricValue = styled.span`",
     lit "2054:const CompetitorKeywordMetricValue = styled.span`") ].

(** The literal replacements, one after the other. *)
Definition replace_each (pairs : list (str * str)) (s : str) : str :=
  fold_left (fun c on => str_replace c (fst on) (snd on)) pairs s.

(** A dashboard source with two of the declarations, as the file has them:
    without line numbers. *)
Definition doc_dashboard : str :=
  str_join nl
    [ lit "const CompetitorCard = styled.div`";
      lit "  padding: 1rem;";
      lit "`;";
      lit "const CompetitorBadge = styled.span`";
      lit "  color: red;";
      lit "`;";
      [] ].

(** The same two declarations as a listing shows them, with line numbers. *)
Definition doc_listing : str :=
  str_join nl
    [ lit "1999:const CompetitorCard = styled.div`";
      lit "2000:  padding: 1rem;";
      lit "2025:const CompetitorBadge = styled.span`";
      [] ].

(** A file of 574 lines, each of which ends with a line break. *)
Definition doc_574_lines : str := concat (repeat (lit "// line" ++ nl) 574).

(** A file of 574 lines, the last one without a line break. *)
Definition doc_574_open : str :=
  concat (repeat (lit "// line" ++ nl) 573) ++ lit "export default App;".

(** The pattern [r] matches at the head of [matched ++ rest], and what it
    matches there is [matched]. *)
Definition matches_at (r : Re.node) (matched rest : str) : Prop :=
  exists cs, Re.match_here r (matched ++ rest) = Some (cs, rest).
(** * Properties *)

(** ** Prefixes and occurrences *)

Lemma startswith_iff (w s : str) :
  startswith w s = true <-> exists t, s = w ++ t.
Proof.
  revert s; induction w as [|a w IH]; intros s; simpl.
  - split; [intros _; now exists s | reflexivity].
  - destruct s as [|b s].
    + split; [discriminate | intros [t Ht]; discriminate].
    + rewrite andb_true_iff, N.eqb_eq, IH. split.
      * intros [-> [t ->]]. now exists t.
      * intros [t Ht]. injection Ht as -> ->. split; [reflexivity | now exists t].
Qed.

Lemma startswith_app (w t : str) : startswith w (w ++ t) = true.
Proof. apply startswith_iff. now exists t. Qed.

Lemma startswith_refl (w : str) : startswith w w = true.
Proof. apply startswith_iff. exists []. now rewrite app_nil_r. Qed.

Lemma startswith_app_l (w p r : str) :
  startswith w p = true -> startswith w (p ++ r) = true.
Proof.
  rewrite !startswith_iff. intros [t ->]. exists (t ++ r). now rewrite app_assoc.
Qed.

Lemma startswith_length (w s : str) :
  startswith w s = true -> length w <= length s.
Proof.
  rewrite startswith_iff. intros [t ->]. rewrite length_app. lia.
Qed.

Lemma startswith_trans (a b s : str) :
  startswith a b = true -> startswith b s = true -> startswith a s = true.
Proof.
  rewrite !startswith_iff. intros [t ->] [u ->]. exists (t ++ u).
  now rewrite app_assoc.
Qed.

(** A word read at the head of [p ++ r] either fits in [p] or runs over
    into [r]. *)
Lemma startswith_split (w p r : str) :
  startswith w (p ++ r) = true ->
  startswith w p = true \/
  exists w', w = p ++ w' /\ w' <> [] /\ startswith w' r = true.
Proof.
  revert w; induction p as [|c p IH]; intros w H.
  - destruct w as [|a w]; [now left | right].
    exists (a :: w). repeat split; [discriminate | exact H].
  - destruct w as [|a w]; [now left |].
    simpl in H. apply andb_true_iff in H as [Hc H].
    apply N.eqb_eq in Hc as ->.
    destruct (IH _ H) as [Hp | (w' & -> & Hne & Hw')].
    + left. simpl. now rewrite N.eqb_refl.
    + right. now exists w'.
Qed.

Lemma comparable_sym (a b : str) : comparable a b = comparable b a.
Proof. unfold comparable. apply orb_comm. Qed.

Lemma startswith_comparable (w a r : str) :
  startswith w (a ++ r) = true -> comparable a w = true.
Proof.
  intros H. unfold comparable.
  destruct (startswith_split _ _ _ H) as [Hp | (w' & -> & _ & _)].
  - rewrite Hp. apply orb_true_r.
  - now rewrite startswith_app.
Qed.

(** What [clear_of] says, read on a text. *)
Lemma clear_of_suffix (a b x a' : str) :
  clear_of a b = true -> a = x ++ a' -> a' <> [] -> comparable a' b = false.
Proof.
  revert a; induction x as [|c x IH]; intros a H -> Hne; simpl in *.
  - destruct a' as [|c a']; [congruence |].
    simpl in H. apply andb_true_iff in H as [H _].
    now apply negb_true_iff in H.
  - apply andb_true_iff in H as [_ H]. now apply (IH _ H).
Qed.

Lemma clear_of_head (a b r : str) :
  clear_of a b = true -> a <> [] -> startswith b (a ++ r) = false.
Proof.
  intros H Hne. destruct (startswith b (a ++ r)) eqn:E; [| reflexivity].
  apply startswith_comparable in E.
  now rewrite (clear_of_suffix a b [] a H eq_refl Hne) in E.
Qed.

Lemma clear_of_tail (c : char) (a b : str) :
  clear_of (c :: a) b = true -> clear_of a b = true.
Proof. simpl. intros H. now apply andb_true_iff in H. Qed.

Lemma str_in_iff (w s : str) :
  str_in w s = true <-> exists a b, s = a ++ w ++ b.
Proof.
  induction s as [|c s IH]; simpl.
  - rewrite orb_false_r, startswith_iff. split.
    + intros [t Ht]. now exists [], t.
    + intros (a & b & H). destruct a; [now exists b |].
      discriminate.
  - rewrite orb_true_iff, startswith_iff, IH. split.
    + intros [[t Ht] | (a & b & ->)].
      * now exists [], t.
      * now exists (c :: a), b.
    + intros (a & b & H). destruct a as [|x a].
      * left. now exists b.
      * right. injection H as _ ->. now exists a, b.
Qed.

Lemma str_in_here (w r : str) : str_in w (w ++ r) = true.
Proof. apply str_in_iff. now exists [], r. Qed.

Lemma str_in_app_r (w a r : str) :
  str_in w r = true -> str_in w (a ++ r) = true.
Proof.
  rewrite !str_in_iff. intros (x & y & ->). exists (a ++ x), y.
  now rewrite app_assoc.
Qed.

Lemma str_in_app_l (w a r : str) :
  str_in w a = true -> str_in w (a ++ r) = true.
Proof.
  rewrite !str_in_iff. intros (x & y & ->). exists x, (y ++ r).
  now rewrite <- !app_assoc.
Qed.

Lemma str_in_trans (a b s : str) :
  str_in a b = true -> str_in b s = true -> str_in a s = true.
Proof.
  rewrite !str_in_iff. intros (x & y & ->) (u & v & ->).
  exists (u ++ x), (y ++ v). now rewrite <- !app_assoc.
Qed.

Lemma str_in_cons_false (w : str) (c : char) (s : str) :
  str_in w (c :: s) = false ->
  startswith w (c :: s) = false /\ str_in w s = false.
Proof. simpl. intros H. now apply orb_false_iff in H. Qed.

(** Behind a stretch clear of [w], the occurrences of [w] are those of the
    rest of the text. *)
Lemma str_in_app_clear (a w r : str) :
  clear_of a w = true -> str_in w (a ++ r) = str_in w r.
Proof.
  induction a as [|c a IH]; intros H; [reflexivity |].
  change (str_in w ((c :: a) ++ r))
    with (startswith w ((c :: a) ++ r) || str_in w (a ++ r)).
  rewrite (clear_of_head _ _ r H) by discriminate.
  apply IH. now apply clear_of_tail in H.
Qed.

Lemma occurrences_app_clear (a w r : str) :
  clear_of a w = true -> occurrences w (a ++ r) = occurrences w r.
Proof.
  induction a as [|c a IH]; intros H; [reflexivity |].
  change (occurrences w ((c :: a) ++ r))
    with ((if startswith w ((c :: a) ++ r) then 1 else 0) + occurrences w (a ++ r)).
  rewrite (clear_of_head _ _ r H) by discriminate.
  apply IH. now apply clear_of_tail in H.
Qed.

Lemma occurrences_short (w s : str) :
  length s < length w -> occurrences w s = 0.
Proof.
  induction s as [|c s IH]; intros H; simpl in *.
  - destruct w; [simpl in H; lia | reflexivity].
  - destruct (startswith w (c :: s)) eqn:E.
    + apply startswith_length in E. simpl in E. lia.
    + apply IH. lia.
Qed.

Lemma occurrences_self (w : str) : w <> [] -> occurrences w w = 1.
Proof.
  destruct w as [|c w]; [congruence | intros _].
  change (occurrences (c :: w) (c :: w))
    with ((if startswith (c :: w) (c :: w) then 1 else 0) + occurrences (c :: w) w).
  rewrite startswith_refl, occurrences_short; simpl; lia.
Qed.

Lemma occurrences_zero (w s : str) :
  str_in w s = false -> occurrences w s = 0.
Proof.
  induction s as [|c s IH]; simpl; intros H; apply orb_false_iff in H as [H1 H2].
  - now rewrite H1.
  - rewrite H1. now apply IH.
Qed.

Lemma occurrences_pos (w s : str) :
  str_in w s = true -> 0 < occurrences w s.
Proof.
  induction s as [|c s IH]; simpl; intros H; apply orb_true_iff in H as [H | H].
  - rewrite H. lia.
  - discriminate.
  - rewrite H. lia.
  - specialize (IH H). lia.
Qed.

(** ** [str.replace] with a non-empty locator *)

Lemma replace_from_skip (old new : str) (k : nat) (s : str) :
  replace_from old new k s = replace_from old new 0 (skipn k s).
Proof.
  revert k; induction s as [|c s IH]; intros [|k]; try reflexivity.
  simpl skipn. rewrite <- IH. reflexivity.
Qed.

Section Replace.

Variables old new : str.
Hypothesis old_nonempty : old <> [].

Lemma replace_nil : str_replace [] old new = [].
Proof. destruct old; [congruence | reflexivity]. Qed.

(** At an occurrence the payload is emitted and the scan resumes after it. *)
Lemma replace_hit (t : str) :
  str_replace (old ++ t) old new = new ++ str_replace t old new.
Proof.
  unfold str_replace. destruct old as [|a o] eqn:E; [congruence |].
  rewrite <- E. replace (old ++ t) with (a :: (o ++ t)) by now rewrite E.
  simpl replace_from.
  replace (a :: o ++ t) with (old ++ t) by now rewrite E.
  rewrite startswith_app, replace_from_skip. f_equal. f_equal.
  replace (length old - 1) with (length o) by (rewrite E; simpl; lia).
  now rewrite skipn_app, skipn_all, Nat.sub_diag.
Qed.

(** Elsewhere the character is copied. *)
Lemma replace_miss (c : char) (s : str) :
  startswith old (c :: s) = false ->
  str_replace (c :: s) old new = c :: str_replace s old new.
Proof.
  intros H. unfold str_replace. destruct old as [|a o] eqn:E; [congruence |].
  rewrite <- E in *. simpl replace_from. now rewrite H.
Qed.

(** Induction along the scan. *)
Lemma replace_ind (P : str -> Prop) :
  P [] ->
  (forall t, P t -> P (old ++ t)) ->
  (forall c s, startswith old (c :: s) = false -> P s -> P (c :: s)) ->
  forall s, P s.
Proof.
  intros Hnil Hhit Hmiss s.
  remember (length s) as n eqn:Hn. revert s Hn.
  induction n as [n IH] using lt_wf_ind. intros s Hn.
  destruct s as [|c s]; [exact Hnil |].
  destruct (startswith old (c :: s)) eqn:E.
  - apply startswith_iff in E as [t Ht]. rewrite Ht. apply Hhit.
    apply (IH (length t)); [| reflexivity].
    rewrite Hn, Ht, length_app. destruct old; [congruence | simpl; lia].
  - apply Hmiss; [exact E |]. apply (IH (length s)); [| reflexivity].
    rewrite Hn. simpl. lia.
Qed.

(** No-op when the locator does not occur. *)
Lemma replace_absent (s : str) :
  str_in old s = false -> str_replace s old new = s.
Proof.
  induction s as [|c s IH]; intros H.
  - apply replace_nil.
  - apply str_in_cons_false in H as [H1 H2].
    rewrite replace_miss by exact H1. now rewrite IH.
Qed.

(** When it occurs, the payload is in the result. *)
Lemma replace_present (s : str) :
  str_in old s = true -> str_in new (str_replace s old new) = true.
Proof.
  induction s as [| t IH | c s Hc IH] using replace_ind; intros H.
  - simpl in H. rewrite orb_false_r in H.
    apply startswith_length in H. destruct old; [congruence | simpl in H; lia].
  - rewrite replace_hit. apply str_in_here.
  - rewrite replace_miss by exact Hc.
    simpl in H. rewrite Hc in H. simpl in H.
    apply (str_in_app_r _ [c]). now apply IH.
Qed.

(** A stretch clear of the locator passes through unchanged and leaves the
    scan where it ends. *)
Lemma replace_frame (w t : str) :
  clear_of w old = true ->
  str_replace (w ++ t) old new = w ++ str_replace t old new.
Proof.
  induction w as [|c w IH]; intros H; [reflexivity |].
  simpl app. rewrite replace_miss.
  - rewrite IH; [reflexivity | now apply clear_of_tail in H].
  - apply (clear_of_head (c :: w) old t H). discriminate.
Qed.

(** A word that the payload cannot complete is read in the result only
    where it is read in the source. *)
Lemma replace_startswith_inv (w : str) :
  clear_after w new = true ->
  forall s p, p <> [] ->
    startswith w (p ++ str_replace s old new) = true ->
    startswith w (p ++ s) = true.
Proof.
  intros Hw s.
  induction s as [| t IH | c s Hc IH] using replace_ind; intros p Hp H.
  - now rewrite replace_nil in H.
  - rewrite replace_hit in H.
    destruct (startswith_split _ _ _ H) as [Hin | (w' & -> & Hne & Hw')].
    + now apply startswith_app_l.
    + exfalso. apply startswith_comparable in Hw'.
      destruct p as [|x p]; [congruence |].
      unfold clear_after in Hw. simpl in Hw.
      rewrite comparable_sym, (clear_of_suffix _ _ p w' Hw eq_refl Hne) in Hw'.
      discriminate.
  - rewrite replace_miss in H by exact Hc.
    replace (p ++ c :: s) with ((p ++ [c]) ++ s) by now rewrite <- app_assoc.
    apply IH.
    + destruct p; discriminate.
    + now rewrite <- app_assoc.
Qed.

Lemma replace_miss_stays (w : str) (c : char) (s : str) :
  clear_after w new = true ->
  startswith w (c :: s) = false ->
  startswith w (c :: str_replace s old new) = false.
Proof.
  intros Hw H. destruct (startswith w (c :: str_replace s old new)) eqn:E;
    [| reflexivity].
  apply (replace_startswith_inv w Hw s [c]) in E; [| discriminate].
  simpl app in E. congruence.
Qed.

(** A word apart from the payload does not appear by the replacement. *)
Lemma replace_keeps_absent (w s : str) :
  clear_of new w = true -> clear_after w new = true ->
  str_in w s = false -> str_in w (str_replace s old new) = false.
Proof.
  intros Hn Hw.
  induction s as [| t IH | c s Hc IH] using replace_ind; intros H.
  - now rewrite replace_nil.
  - rewrite replace_hit, str_in_app_clear by exact Hn.
    apply IH. destruct (str_in w t) eqn:E; [| reflexivity].
    now rewrite (str_in_app_r _ old _ E) in H.
  - rewrite replace_miss by exact Hc.
    apply str_in_cons_false in H as [H1 H2].
    simpl. rewrite (replace_miss_stays w c s Hw H1). simpl. now apply IH.
Qed.

(** No occurrence of the locator is left when locator and payload are
    apart. *)
Lemma replace_removes (s : str) :
  clear_of new old = true -> clear_after old new = true ->
  str_in old (str_replace s old new) = false.
Proof.
  intros Hn Ho.
  induction s as [| t IH | c s Hc IH] using replace_ind.
  - rewrite replace_nil. simpl. rewrite orb_false_r.
    destruct old; [congruence | reflexivity].
  - now rewrite replace_hit, str_in_app_clear.
  - rewrite replace_miss by exact Hc. simpl.
    now rewrite (replace_miss_stays old c s Ho Hc), IH.
Qed.

(** A word apart from the locator survives the replacement. *)
Lemma replace_keeps_present (w s : str) :
  clear_of w old = true -> clear_after old w = true ->
  str_in w s = true -> str_in w (str_replace s old new) = true.
Proof.
  intros Hw Ho H. apply str_in_iff in H as (a & b & ->).
  remember (length a) as n eqn:Hn. revert a Hn.
  induction n as [n IH] using lt_wf_ind. intros a Hn.
  destruct a as [|c a].
  - simpl app. rewrite replace_frame by exact Hw. apply str_in_here.
  - destruct (startswith old ((c :: a) ++ w ++ b)) eqn:E.
    + apply startswith_iff in E as [t Ht].
      apply app_eq_app in Ht as [l [[Ha Ht] | [Hold Hr]]].
      * (* the occurrence of the locator ends before the word starts *)
        rewrite Ha, <- app_assoc, replace_hit.
        apply str_in_app_r, (IH (length l)); [| reflexivity].
        rewrite Hn, Ha, length_app. destruct old; [congruence | simpl; lia].
      * destruct l as [|x l].
        -- rewrite app_nil_r in Hold. simpl in Hr. subst t.
           rewrite <- Hold, replace_hit, replace_frame by exact Hw.
           apply str_in_app_r, str_in_here.
        -- (* it would run over into the word *)
           exfalso. unfold clear_after in Ho. rewrite Hold in Ho. simpl in Ho.
           assert (Hc : comparable (x :: l) w = false)
             by (apply (clear_of_suffix _ _ a (x :: l) Ho eq_refl); discriminate).
           assert (Hs : startswith (x :: l) (w ++ b) = true)
             by (rewrite Hr; apply startswith_app).
           apply startswith_comparable in Hs.
           rewrite comparable_sym in Hs. congruence.
    + simpl app in *. rewrite replace_miss by exact E.
      apply (str_in_app_r _ [c]), (IH (length a)); [| reflexivity].
      rewrite Hn. simpl. lia.
Qed.

Lemma leftmost_split_nonempty (us : list str) :
  leftmost_split old us -> us <> [].
Proof. destruct us; [intros [] | discriminate]. Qed.

(** The result is the source with every occurrence found by the scan
    exchanged for the payload: what Python writes [new.join(s.split(old))]. *)
Lemma replace_split (s : str) :
  exists us, leftmost_split old us /\
             s = str_join old us /\ str_replace s old new = str_join new us.
Proof.
  induction s as [| t IH | c s Hc IH] using replace_ind.
  - exists [[]]. repeat split; [| apply replace_nil].
    simpl. rewrite orb_false_r. destruct old; [congruence | reflexivity].
  - destruct IH as (us & Hl & Ht & Hr).
    destruct us as [|u us]; [destruct Hl |].
    exists ([] :: u :: us). repeat split.
    + simpl app. now apply occurrences_self.
    + exact Hl.
    + now rewrite Ht.
    + rewrite replace_hit, Hr. reflexivity.
  - destruct IH as (us & Hl & Hs & Hr).
    destruct us as [|u us]; [destruct Hl |].
    exists ((c :: u) :: us). destruct us as [|v us].
    + simpl in Hs. subst u. repeat split.
      * simpl in Hl |- *. now rewrite Hc, Hl.
      * now rewrite replace_miss, Hr.
    + destruct Hl as [Hu Hl]. repeat split.
      * change (occurrences old ((c :: u) ++ old))
          with ((if startswith old (c :: u ++ old) then 1 else 0)
                + occurrences old (u ++ old)).
        rewrite Hu. destruct (startswith old (c :: u ++ old)) eqn:E; [| reflexivity].
        apply (startswith_app_l _ _ (str_join old (v :: us))) in E.
        change (str_join old (u :: v :: us))
          with (u ++ old ++ str_join old (v :: us)) in Hs.
        rewrite <- app_comm_cons, <- app_assoc, <- Hs in E. congruence.
      * exact Hl.
      * rewrite Hs. reflexivity.
      * rewrite replace_miss, Hr by exact Hc. reflexivity.
Qed.

(** A payload that begins with the locator: each occurrence of the locator
    becomes one occurrence of the payload, and no other arises. *)
Lemma replace_occurrences (s : str) :
  startswith old new = true ->
  clear_after new new = true -> clear_after old old = true ->
  clear_after old new = true ->
  occurrences new (str_replace s old new) = occurrences old s.
Proof.
  intros Hpre Hnn Hoo Hon.
  assert (Hnew : new <> []).
  { intros ->. apply startswith_length in Hpre.
    destruct old; [congruence | simpl in Hpre; lia]. }
  induction s as [| t IH | c s Hc IH] using replace_ind.
  - rewrite replace_nil. simpl.
    destruct new; [congruence |]. destruct old; [congruence | reflexivity].
  - rewrite replace_hit.
    destruct new as [|x n'] eqn:En; [congruence |]. rewrite <- En in *.
    destruct old as [|y o'] eqn:Eo; [congruence |]. rewrite <- Eo in *.
    replace (new ++ str_replace t old new)
      with (x :: (n' ++ str_replace t old new)) by now rewrite En.
    replace (old ++ t) with (y :: (o' ++ t)) by now rewrite Eo.
    cbn [occurrences].
    replace (x :: n' ++ str_replace t old new)
      with (new ++ str_replace t old new) by now rewrite En.
    replace (y :: o' ++ t) with (old ++ t) by now rewrite Eo.
    rewrite !startswith_app.
    unfold clear_after in Hnn, Hoo. rewrite En in Hnn at 1. rewrite Eo in Hoo at 1.
    simpl tl in Hnn, Hoo.
    now rewrite !occurrences_app_clear, IH.
  - rewrite replace_miss by exact Hc. cbn [occurrences].
    rewrite Hc, IH.
    destruct (startswith new (c :: str_replace s old new)) eqn:E; [| reflexivity].
    apply (startswith_trans _ _ _ Hpre) in E.
    now rewrite (replace_miss_stays old c s Hon Hc) in E.
Qed.

End Replace.

(** With a payload that extends the locator, a second pass finds every
    occurrence again, inside the payload it inserted, and inserts the
    extension once more. *)
Lemma replace_twice (old ext s : str) :
  old <> [] ->
  clear_of ext old = true -> clear_after old (old ++ ext) = true ->
  str_replace (str_replace s old (old ++ ext)) old (old ++ ext)
  = str_replace s old (old ++ ext ++ ext).
Proof.
  intros Hold Hext Hon.
  induction s as [| t IH | c s Hc IH] using (replace_ind old Hold).
  - now rewrite !replace_nil.
  - rewrite (replace_hit old (old ++ ext)), <- app_assoc by exact Hold.
    rewrite replace_hit, replace_frame, IH by assumption.
    rewrite (replace_hit old (old ++ ext ++ ext)) by exact Hold.
    now rewrite <- !app_assoc.
  - rewrite (replace_miss old (old ++ ext)) by assumption.
    rewrite replace_miss by (try apply replace_miss_stays; assumption).
    rewrite IH. now rewrite (replace_miss old (old ++ ext ++ ext)) by assumption.
Qed.

(** A longer payload gives a longer result as soon as the locator occurs. *)
Lemma replace_length_le (old new new' s : str) :
  old <> [] -> length new <= length new' ->
  length (str_replace s old new) <= length (str_replace s old new').
Proof.
  intros Hold Hlen.
  induction s as [| t IH | c s Hc IH] using (replace_ind old Hold).
  - now rewrite !replace_nil.
  - rewrite !replace_hit, !length_app by exact Hold. lia.
  - rewrite !replace_miss by assumption. simpl. lia.
Qed.

Lemma replace_length_lt (old new new' s : str) :
  old <> [] -> length new < length new' -> str_in old s = true ->
  length (str_replace s old new) < length (str_replace s old new').
Proof.
  intros Hold Hlen.
  induction s as [| t IH | c s Hc IH] using (replace_ind old Hold); intros H.
  - simpl in H. rewrite orb_false_r in H. apply startswith_length in H.
    destruct old; [congruence | simpl in H; lia].
  - rewrite !replace_hit, !length_app by exact Hold.
    pose proof (replace_length_le old new new' t Hold). lia.
  - rewrite !replace_miss by assumption.
    simpl in H. rewrite Hc in H. simpl in H |- *. specialize (IH H). lia.
Qed.

(** ** Two replacements in sequence *)

Section TwoLocators.

Variables o1 n1 o2 n2 : str.
Hypothesis o1_nonempty : o1 <> [].
Hypothesis o2_nonempty : o2 <> [].

(** Induction along a scan that looks for both locators. *)
Lemma scan2_ind (P : str -> Prop) :
  P [] ->
  (forall t, P t -> P (o1 ++ t)) ->
  (forall t, P t -> P (o2 ++ t)) ->
  (forall c s, startswith o1 (c :: s) = false ->
               startswith o2 (c :: s) = false -> P s -> P (c :: s)) ->
  forall s, P s.
Proof.
  intros Hnil H1 H2 Hmiss s.
  remember (length s) as n eqn:Hn. revert s Hn.
  induction n as [n IH] using lt_wf_ind. intros s Hn.
  destruct s as [|c s]; [exact Hnil |].
  destruct (startswith o1 (c :: s)) eqn:E1.
  - apply startswith_iff in E1 as [t Ht]. rewrite Ht. apply H1.
    apply (IH (length t)); [| reflexivity].
    rewrite Hn, Ht, length_app. destruct o1; [congruence | simpl; lia].
  - destruct (startswith o2 (c :: s)) eqn:E2.
    + apply startswith_iff in E2 as [t Ht]. rewrite Ht. apply H2.
      apply (IH (length t)); [| reflexivity].
      rewrite Hn, Ht, length_app. destruct o2; [congruence | simpl; lia].
    + apply Hmiss; try assumption. apply (IH (length s)); [| reflexivity].
      rewrite Hn. simpl. lia.
Qed.

(** The second replacement works on the occurrences of its locator in the
    source, and leaves the payloads of the first alone. *)
Lemma replace_pieces (s : str) :
  clear_of n1 o2 = true -> clear_of o2 o1 = true -> clear_after o2 n1 = true ->
  exists ps,
    src ps = s /\
    dst ps = str_replace (str_replace s o1 n1) o2 n2 /\
    swaps_in [(o1, n1); (o2, n2)] ps.
Proof.
  intros Hn1 Ho2 Hafter.
  induction s as [| t IH | t IH | c s Hc1 Hc2 IH] using scan2_ind.
  - exists []. rewrite !replace_nil by assumption. repeat split. constructor.
  - destruct IH as (ps & Hsrc & Hdst & Hsw).
    exists (Swap o1 n1 :: ps). simpl. rewrite Hsrc, Hdst. repeat split.
    + now rewrite replace_hit, replace_frame.
    + constructor; [now left | exact Hsw].
  - destruct IH as (ps & Hsrc & Hdst & Hsw).
    exists (Swap o2 n2 :: ps). simpl. rewrite Hsrc, Hdst. repeat split.
    + now rewrite replace_frame, replace_hit.
    + constructor; [right; now left | exact Hsw].
  - destruct IH as (ps & Hsrc & Hdst & Hsw).
    exists (Keep c :: ps). simpl. rewrite Hsrc, Hdst. repeat split.
    + rewrite (replace_miss o1) by assumption.
      rewrite replace_miss; [reflexivity | assumption |].
      now apply replace_miss_stays.
    + constructor; [exact I | exact Hsw].
Qed.

(** Locators and payloads that are apart from each other: the order of the
    two replacements does not matter. *)
Lemma replace_commute (s : str) :
  clear_of o1 o2 = true -> clear_of o2 o1 = true ->
  clear_of n1 o2 = true -> clear_of n2 o1 = true ->
  clear_after o2 n1 = true -> clear_after o1 n2 = true ->
  str_replace (str_replace s o1 n1) o2 n2
  = str_replace (str_replace s o2 n2) o1 n1.
Proof.
  intros H12 H21 Hn1 Hn2 Ha2 Ha1.
  induction s as [| t IH | t IH | c s Hc1 Hc2 IH] using scan2_ind.
  - now rewrite !replace_nil.
  - rewrite (replace_hit o1), (replace_frame o2 n2 o2_nonempty n1) by assumption.
    rewrite (replace_frame o2 n2 o2_nonempty o1), (replace_hit o1) by assumption.
    now rewrite IH.
  - rewrite (replace_frame o1 n1 o1_nonempty o2), (replace_hit o2) by assumption.
    rewrite (replace_hit o2), (replace_frame o1 n1 o1_nonempty n2) by assumption.
    now rewrite IH.
  - rewrite (replace_miss o1 n1), (replace_miss o2 n2 o2_nonempty c s) by assumption.
    rewrite !replace_miss; try assumption.
    + now rewrite IH.
    + now apply replace_miss_stays.
    + now apply replace_miss_stays.
Qed.

End TwoLocators.

(** ** The literal replacements of fix-categories.py and add-revenue-router.py *)

Ltac by_evaluation := vm_compute; reflexivity.

Lemma old_romance_nonempty : FixCategories.old_romance <> [].
Proof. discriminate. Qed.

Lemma old_drama_nonempty : FixCategories.old_drama <> [].
Proof. discriminate. Qed.

Lemma old_import_nonempty : AddRevenueRouter.old_import <> [].
Proof. discriminate. Qed.

Lemma old_route_nonempty : AddRevenueRouter.old_route <> [].
Proof. discriminate. Qed.

(** C6: fix-categories.py exchanges every occurrence of the romance locator
    that a left-to-right scan finds for its payload, then does the same for
    the drama locator on the result, and the text it writes contains
    neither locator any more. *)
Theorem fix_categories_replaces_every_occurrence (D : str) :
  exists us vs,
    leftmost_split FixCategories.old_romance us /\
    D = str_join FixCategories.old_romance us /\
    leftmost_split FixCategories.old_drama vs /\
    str_join FixCategories.new_romance us = str_join FixCategories.old_drama vs /\
    FixCategories.transform D = str_join FixCategories.new_drama vs /\
    str_in FixCategories.old_romance (FixCategories.transform D) = false /\
    str_in FixCategories.old_drama (FixCategories.transform D) = false.
Proof.
  unfold FixCategories.transform; cbv zeta.
  destruct (replace_split FixCategories.old_romance FixCategories.new_romance
              old_romance_nonempty D) as (us & Hus & HD & H1).
  destruct (replace_split FixCategories.old_drama FixCategories.new_drama
              old_drama_nonempty (str_replace D FixCategories.old_romance
                                    FixCategories.new_romance))
    as (vs & Hvs & Hmid & H2).
  exists us, vs. repeat split; try assumption.
  - now rewrite <- H1.
  - apply replace_keeps_absent; try by_evaluation.
    + exact old_drama_nonempty.
    + apply replace_removes; try by_evaluation. exact old_romance_nonempty.
  - apply replace_removes; try by_evaluation. exact old_drama_nonempty.
Qed.

(** C7: what fix-categories.py and add-revenue-router.py write is the text
    they read with some occurrences of their locators exchanged for the
    payloads; every other character, line endings and blanks included, is
    kept as it is and in the same order. *)
Theorem replacements_keep_text_outside_matches (D : str) :
  (exists ps,
     src ps = D /\ dst ps = FixCategories.transform D /\
     swaps_in [(FixCategories.old_romance, FixCategories.new_romance);
               (FixCategories.old_drama, FixCategories.new_drama)] ps) /\
  (exists ps,
     src ps = D /\ dst ps = AddRevenueRouter.transform D /\
     swaps_in [(AddRevenueRouter.old_import, AddRevenueRouter.new_import);
               (AddRevenueRouter.old_route, AddRevenueRouter.new_route)] ps).
Proof.
  split.
  - unfold FixCategories.transform; cbv zeta.
    apply replace_pieces; try by_evaluation.
    + exact old_romance_nonempty.
    + exact old_drama_nonempty.
  - unfold AddRevenueRouter.transform, AddRevenueRouter.route_directive; cbv zeta.
    apply replace_pieces; try by_evaluation.
    + exact old_import_nonempty.
    + exact old_route_nonempty.
Qed.

(** C10: the two replacements of fix-categories.py commute: no occurrence
    of one locator can begin inside the other locator or inside the other
    payload, no payload can complete an occurrence of the other locator, and
    no payload contains a locator. *)
Theorem fix_categories_replacements_commute (D : str) :
  str_replace (str_replace D FixCategories.old_romance FixCategories.new_romance)
              FixCategories.old_drama FixCategories.new_drama
  = str_replace (str_replace D FixCategories.old_drama FixCategories.new_drama)
                FixCategories.old_romance FixCategories.new_romance
  /\ clear_of FixCategories.old_romance FixCategories.old_drama = true
  /\ clear_of FixCategories.old_drama FixCategories.old_romance = true
  /\ forallb (fun new => forallb (fun old => negb (str_in old new))
                           [FixCategories.old_romance; FixCategories.old_drama])
             [FixCategories.new_romance; FixCategories.new_drama] = true.
Proof.
  split; [| repeat split; by_evaluation].
  apply replace_commute; try by_evaluation.
  - exact old_romance_nonempty.
  - exact old_drama_nonempty.
Qed.

(** ** The route directive of add-revenue-router.py *)

Lemma new_route_extends_old :
  AddRevenueRouter.new_route = AddRevenueRouter.old_route ++ inserted_route.
Proof. by_evaluation. Qed.

(** C1, counterexample: the directive is not guarded.  On a server file
    that holds the locator line once, a second run changes the file again:
    after it the revenue line is there twice.  On a file that holds the
    locator line twice, one run leaves the two-line sequence twice. *)
Lemma route_directive_second_run_differs :
  str_in AddRevenueRouter.old_route doc_server = true /\
  AddRevenueRouter.route_directive (AddRevenueRouter.route_directive doc_server)
  <> AddRevenueRouter.route_directive doc_server /\
  occurrences inserted_route (AddRevenueRouter.route_directive doc_server) = 1 /\
  occurrences inserted_route
    (AddRevenueRouter.route_directive (AddRevenueRouter.route_directive doc_server))
  = 2 /\
  str_in AddRevenueRouter.old_route doc_two_routes = true /\
  occurrences AddRevenueRouter.new_route
    (AddRevenueRouter.route_directive doc_two_routes) = 2.
Proof.
  split; [by_evaluation | split]; [| repeat split; by_evaluation].
  intros H. apply (f_equal (@length char)) in H. vm_compute in H. discriminate.
Qed.

(** C1, amended: on a document that contains the locator line, one run of
    the route directive yields a document in which the locator line followed
    by the revenue line occurs as often as the locator line occurs in the
    input (once when it occurs once); the directive has no presence guard,
    so a second run is not the identity: it yields the input with every
    locator line followed by two copies of the revenue line. *)
Theorem route_directive_once_and_twice (D : str) :
  str_in AddRevenueRouter.old_route D = true ->
  occurrences AddRevenueRouter.new_route (AddRevenueRouter.route_directive D)
  = occurrences AddRevenueRouter.old_route D /\
  0 < occurrences AddRevenueRouter.old_route D /\
  AddRevenueRouter.route_directive (AddRevenueRouter.route_directive D)
  = str_replace D AddRevenueRouter.old_route
      (AddRevenueRouter.old_route ++ inserted_route ++ inserted_route) /\
  AddRevenueRouter.route_directive (AddRevenueRouter.route_directive D)
  <> AddRevenueRouter.route_directive D.
Proof.
  intros HD. unfold AddRevenueRouter.route_directive.
  assert (Htwice :
    str_replace (str_replace D AddRevenueRouter.old_route AddRevenueRouter.new_route)
                AddRevenueRouter.old_route AddRevenueRouter.new_route
    = str_replace D AddRevenueRouter.old_route
        (AddRevenueRouter.old_route ++ inserted_route ++ inserted_route)).
  { rewrite new_route_extends_old.
    apply replace_twice; [exact old_route_nonempty | by_evaluation | by_evaluation]. }
  repeat split.
  - apply replace_occurrences; try by_evaluation. exact old_route_nonempty.
  - now apply occurrences_pos.
  - exact Htwice.
  - rewrite Htwice. intros H. apply (f_equal (@length char)) in H.
    pose proof (replace_length_lt AddRevenueRouter.old_route
                  AddRevenueRouter.new_route
                  (AddRevenueRouter.old_route ++ inserted_route ++ inserted_route)
                  D old_route_nonempty) as Hlt.
    assert (Hlen : length AddRevenueRouter.new_route
                   < length (AddRevenueRouter.old_route ++ inserted_route ++ inserted_route))
      by (vm_compute; lia).
    specialize (Hlt Hlen HD). lia.
Qed.

Lemma route_directive_once_and_twice_witness :
  str_in AddRevenueRouter.old_route doc_server = true /\
  occurrences AddRevenueRouter.new_route
    (AddRevenueRouter.route_directive doc_server) = 1 /\
  AddRevenueRouter.route_directive (AddRevenueRouter.route_directive doc_server)
  <> AddRevenueRouter.route_directive doc_server.
Proof.
  assert (HD : str_in AddRevenueRouter.old_route doc_server = true)
    by (vm_compute; reflexivity).
  destruct (route_directive_once_and_twice doc_server HD) as (Hocc & _ & _ & Hneq).
  split; [exact HD | split; [| exact Hneq]].
  rewrite Hocc. vm_compute. reflexivity.
Defined.

(** ** Absent locators: add_helpers.py and add-revenue-router.py *)

(** C3: when the marker does not occur, add_helpers.py writes nothing and
    the file stays as it was; when neither locator of add-revenue-router.py
    occurs, the content it writes back is the content it read. *)
Theorem absent_locator_leaves_document (D1 D2 : str) :
  str_in AddHelpers.marker D1 = false ->
  str_in AddRevenueRouter.old_import D2 = false ->
  str_in AddRevenueRouter.old_route D2 = false ->
  written (AddHelpers.run D1) = None /\
  file_after D1 (AddHelpers.run D1) = D1 /\
  written (AddRevenueRouter.run D2) = Some D2 /\
  file_after D2 (AddRevenueRouter.run D2) = D2.
Proof.
  intros Hm Hi Hr.
  assert (Ht : AddRevenueRouter.transform D2 = D2).
  { unfold AddRevenueRouter.transform, AddRevenueRouter.route_directive; cbv zeta.
    rewrite (replace_absent _ _ old_import_nonempty D2 Hi).
    apply replace_absent; [exact old_route_nonempty | exact Hr]. }
  unfold AddHelpers.run, AddRevenueRouter.run, file_after. rewrite Hm, Ht.
  repeat split.
Qed.

Lemma absent_locator_leaves_document_witness :
  str_in AddHelpers.marker doc_other_handler = false /\
  str_in AddRevenueRouter.old_import doc_plain = false /\
  str_in AddRevenueRouter.old_route doc_plain = false /\
  written (AddHelpers.run doc_other_handler) = None /\
  written (AddRevenueRouter.run doc_plain) = Some doc_plain.
Proof.
  assert (Hm : str_in AddHelpers.marker doc_other_handler = false)
    by (vm_compute; reflexivity).
  assert (Hi : str_in AddRevenueRouter.old_import doc_plain = false)
    by (vm_compute; reflexivity).
  assert (Hr : str_in AddRevenueRouter.old_route doc_plain = false)
    by (vm_compute; reflexivity).
  destruct (absent_locator_leaves_document _ _ Hm Hi Hr) as (H1 & _ & H2 & _).
  exact (conj Hm (conj Hi (conj Hr (conj H1 H2)))).
Defined.

(** C8: when the marker is absent, add_helpers.py takes the branch that
    prints the failure line, writes nothing, and ends without an
    exception. *)
Theorem add_helpers_marker_not_found (D : str) :
  str_in AddHelpers.marker D = false ->
  AddHelpers.run D =
    {| written := None;
       printed := [[10060%N] ++ lit " Marker not found"];
       raised := false |} /\
  file_after D (AddHelpers.run D) = D.
Proof.
  intros H. unfold file_after, AddHelpers.run. rewrite H. split; reflexivity.
Qed.

Lemma add_helpers_marker_not_found_witness :
  str_in AddHelpers.marker doc_other_handler = false /\
  raised (AddHelpers.run doc_other_handler) = false /\
  written (AddHelpers.run doc_other_handler) = None.
Proof.
  assert (Hm : str_in AddHelpers.marker doc_other_handler = false)
    by (vm_compute; reflexivity).
  destruct (add_helpers_marker_not_found _ Hm) as [H _].
  rewrite H. exact (conj Hm (conj eq_refl eq_refl)).
Defined.

(** ** The line insertion of add-suggestions-state.py *)

Lemma list_insert_length {A : Type} (i : nat) (x : A) (l : list A) :
  length (list_insert i x l) = S (length l).
Proof.
  unfold list_insert. rewrite length_app. simpl.
  rewrite <- (firstn_skipn i l) at 3. rewrite length_app. lia.
Qed.

Lemma list_insert_at {A : Type} (i : nat) (x : A) (l : list A) :
  i <= length l -> nth_error (list_insert i x l) i = Some x.
Proof.
  intros H. unfold list_insert.
  rewrite nth_error_app2; rewrite length_firstn, Nat.min_l by exact H; [| lia].
  now rewrite Nat.sub_diag.
Qed.

Lemma list_insert_before {A : Type} (i j : nat) (x : A) (l : list A) :
  i <= length l -> j < i ->
  nth_error (list_insert i x l) j = nth_error l j.
Proof.
  intros H Hj. unfold list_insert.
  rewrite nth_error_app1 by (rewrite length_firstn; lia).
  rewrite <- (firstn_skipn i l) at 2.
  now rewrite nth_error_app1 by (rewrite length_firstn; lia).
Qed.

Lemma list_insert_after {A : Type} (i j : nat) (x : A) (l : list A) :
  i <= length l -> i <= j ->
  nth_error (list_insert i x l) (S j) = nth_error l j.
Proof.
  intros H Hj. unfold list_insert.
  rewrite nth_error_app2; rewrite length_firstn, Nat.min_l by exact H; [| lia].
  rewrite <- (firstn_skipn i l) at 2.
  rewrite nth_error_app2; rewrite length_firstn, Nat.min_l by exact H; [| lia].
  now replace (S j - i) with (S (j - i)) by lia.
Qed.

(** An index at or past the end is clamped: the element is appended. *)
Lemma list_insert_past_end {A : Type} (i : nat) (x : A) (l : list A) :
  length l <= i -> list_insert i x l = l ++ [x].
Proof.
  intros H. unfold list_insert. now rewrite firstn_all2, skipn_all2 by exact H.
Qed.

(** Writing the lines read gives the text back. *)
Lemma writelines_readlines (s : str) : writelines (readlines s) = s.
Proof.
  unfold writelines. induction s as [|c s IH]; [reflexivity |].
  simpl. destruct (N.eqb c 10).
  - simpl. now rewrite IH.
  - destruct (readlines s) as [|l ls]; simpl in *; now rewrite <- IH.
Qed.

Lemma writelines_insert (i : nat) (x : str) (lines : list str) :
  writelines (list_insert i x lines)
  = writelines (firstn i lines) ++ x ++ writelines (skipn i lines).
Proof.
  unfold writelines, list_insert. now rewrite concat_app.
Qed.

(** The list that the script writes: one element more than the list read,
    the new line at index 574, the elements before it in place and the
    elements from index 574 on one index further. *)
Lemma transform_lines_shifts (lines : list str) :
  574 <= length lines ->
  let out := AddSuggestionsState.transform_lines lines in
  length out = S (length lines) /\
  nth_error out 574 = Some AddSuggestionsState.new_line /\
  (forall j, j < 574 -> nth_error out j = nth_error lines j) /\
  (forall j, 574 <= j -> nth_error out (S j) = nth_error lines j).
Proof.
  intros H out. subst out.
  unfold AddSuggestionsState.transform_lines, AddSuggestionsState.insert_at.
  split; [apply list_insert_length |].
  split; [now apply list_insert_at |].
  split; [intros j Hj; now apply list_insert_before |].
  intros j Hj; now apply list_insert_after.
Qed.

Lemma transform_past_end (D : str) :
  length (readlines D) < 575 ->
  AddSuggestionsState.transform_lines (readlines D)
  = readlines D ++ [AddSuggestionsState.new_line] /\
  AddSuggestionsState.transform D = D ++ AddSuggestionsState.new_line.
Proof.
  intros H.
  assert (Hl : AddSuggestionsState.transform_lines (readlines D)
               = readlines D ++ [AddSuggestionsState.new_line]).
  { unfold AddSuggestionsState.transform_lines, AddSuggestionsState.insert_at.
    apply list_insert_past_end. lia. }
  split; [exact Hl |].
  unfold AddSuggestionsState.transform. rewrite Hl.
  unfold writelines. rewrite concat_app. fold (writelines (readlines D)).
  rewrite writelines_readlines. cbn [concat]. now rewrite app_nil_r.
Qed.



(** *** Reading the written file again

    The lines above are the elements of the list that the script reads and
    writes.  When the text before the insertion point is empty or ends with
    a line break, reading the written text again gives the same list; when
    the new line is appended to a last line that has no line break, the new
    text continues that line. *)

Lemma readlines_nil_inv (s : str) : readlines s = [] -> s = [].
Proof.
  destruct s as [|c s]; [reflexivity |]. simpl.
  destruct (N.eqb c 10); [discriminate |].
  destruct (readlines s); discriminate.
Qed.

Lemma readlines_app (s t : str) :
  terminated s = true -> readlines (s ++ t) = readlines s ++ readlines t.
Proof.
  induction s as [|c s IH]; intros H; [reflexivity |].
  simpl app. cbn [readlines]. destruct (N.eqb c 10) eqn:Ec.
  - destruct s as [|d s]; [reflexivity |]. now rewrite IH.
  - destruct s as [|d s]; [simpl in H; congruence |].
    rewrite IH by exact H.
    destruct (readlines (d :: s)) as [|l ls] eqn:El; [| reflexivity].
    apply readlines_nil_inv in El. discriminate.
Qed.

Lemma readlines_new_line :
  readlines AddSuggestionsState.new_line = [AddSuggestionsState.new_line].
Proof. by_evaluation. Qed.

Lemma reread_after_append (D : str) :
  length (readlines D) < 575 -> terminated D = true ->
  readlines (AddSuggestionsState.transform D)
  = readlines D ++ [AddSuggestionsState.new_line].
Proof.
  intros H Ht. rewrite (proj2 (transform_past_end D H)).
  rewrite readlines_app by exact Ht. now rewrite readlines_new_line.
Qed.

Lemma readlines_tail (s : str) : exists s', tl (readlines s) = readlines s'.
Proof.
  induction s as [|c s [s' IH]]; [now exists [] |].
  simpl. destruct (N.eqb c 10); [now exists s |].
  destruct (readlines s) as [|l ls]; [now exists [] |].
  now exists s'.
Qed.

Lemma readlines_skipn (i : nat) (s : str) :
  readlines (writelines (skipn i (readlines s))) = skipn i (readlines s).
Proof.
  revert s; induction i as [|i IH]; intros s.
  - simpl skipn. now rewrite writelines_readlines.
  - destruct (readlines_tail s) as [s' Hs'].
    replace (skipn (S i) (readlines s)) with (skipn i (tl (readlines s)))
      by (destruct (readlines s); [now rewrite skipn_nil |]; reflexivity).
    rewrite Hs'. apply IH.
Qed.

Lemma readlines_line_nonempty (s l : str) (ls : list str) :
  readlines s = l :: ls -> l <> [].
Proof.
  destruct s as [|c s]; [discriminate |]. simpl.
  destruct (N.eqb c 10); [intros [= <- _]; discriminate |].
  destruct (readlines s); intros [= <- _]; discriminate.
Qed.

Lemma terminated_cons (c : char) (s : str) :
  s <> [] -> terminated (c :: s) = terminated s.
Proof. destruct s; [congruence | reflexivity]. Qed.

(** The lines before the last one end with a line break. *)
Lemma firstn_lines_terminated (s : str) (i : nat) :
  i < length (readlines s) ->
  terminated (writelines (firstn i (readlines s))) = true.
Proof.
  unfold writelines. revert i; induction s as [|c s IH]; intros i Hi.
  - simpl in Hi. lia.
  - destruct i as [|i]; [reflexivity |].
    cbn [readlines] in *. destruct (N.eqb c 10) eqn:Ec.
    + apply N.eqb_eq in Ec as ->. simpl in Hi |- *.
      specialize (IH i ltac:(lia)).
      destruct (concat (firstn i (readlines s))); [reflexivity | exact IH].
    + destruct (readlines s) as [|l ls] eqn:El.
      * simpl in Hi. lia.
      * specialize (IH (S i) ltac:(simpl in Hi |- *; lia)).
        cbn [firstn concat app] in IH |- *. rewrite terminated_cons; [exact IH |].
        apply readlines_line_nonempty in El. destruct l; [congruence | discriminate].
Qed.

Lemma readlines_firstn (i : nat) (s : str) :
  i < length (readlines s) ->
  readlines (writelines (firstn i (readlines s))) = firstn i (readlines s).
Proof.
  intros Hi. apply (app_inv_tail (skipn i (readlines s))).
  rewrite firstn_skipn, <- (readlines_skipn i s).
  rewrite <- readlines_app by now apply firstn_lines_terminated.
  unfold writelines. rewrite <- concat_app, firstn_skipn.
  change (concat (readlines s)) with (writelines (readlines s)).
  now rewrite writelines_readlines.
Qed.

Lemma reread_after_insert (D : str) :
  574 < length (readlines D) ->
  readlines (AddSuggestionsState.transform D)
  = AddSuggestionsState.transform_lines (readlines D).
Proof.
  intros H.
  unfold AddSuggestionsState.transform, AddSuggestionsState.transform_lines,
    AddSuggestionsState.insert_at.
  rewrite writelines_insert.
  rewrite readlines_app by now apply firstn_lines_terminated.
  rewrite readlines_app by by_evaluation.
  now rewrite readlines_firstn, readlines_new_line, readlines_skipn.
Qed.

Example reread_unterminated_last_line :
  AddSuggestionsState.transform doc_two_lines
  = lit "import React from 'react';" ++ nl ++ lit "export default App;"
    ++ AddSuggestionsState.new_line /\
  readlines (AddSuggestionsState.transform doc_two_lines)
  = [lit "import React from 'react';" ++ nl;
     lit "export default App;" ++ AddSuggestionsState.new_line].
Proof. split; by_evaluation. Qed.

Lemma readlines_cons (c : char) (s : str) :
  readlines (c :: s)
  = if N.eqb c 10 then [c] :: readlines s
    else match readlines s with
         | [] => [[c]]
         | l :: ls => (c :: l) :: ls
         end.
Proof. reflexivity. Qed.

(** A line written after a text that does not end with a line break
    continues the last line of that text. *)
Lemma readlines_app_unterminated (s u : str) :
  terminated s = false -> readlines u = [u] ->
  readlines (s ++ u)
  = removelast (readlines s) ++ [last (readlines s) [] ++ u].
Proof.
  intros Hs Hu. induction s as [|c s IH]; [discriminate |].
  destruct s as [|d s].
  - simpl in Hs. simpl app. rewrite !readlines_cons, Hs, Hu. reflexivity.
  - specialize (IH Hs).
    change ((c :: d :: s) ++ u) with (c :: ((d :: s) ++ u)).
    rewrite (readlines_cons c ((d :: s) ++ u)), (readlines_cons c (d :: s)), IH.
    destruct (readlines (d :: s)) as [|l0 ls0] eqn:ER;
      [apply readlines_nil_inv in ER; discriminate |].
    destruct (N.eqb c 10); destruct ls0; reflexivity.
Qed.

(** The file read again holds the list that the script wrote whenever the
    text in front of the new line is empty or ends with a line break. *)
Lemma reread_written_lines (D : str) :
  574 < length (readlines D) \/ terminated D = true ->
  readlines (AddSuggestionsState.transform D)
  = AddSuggestionsState.transform_lines (readlines D).
Proof.
  intros [H | H]; [now apply reread_after_insert |].
  destruct (Nat.lt_ge_cases 574 (length (readlines D))) as [Hn | Hn];
    [now apply reread_after_insert |].
  assert (Hs : length (readlines D) < 575) by lia.
  rewrite (reread_after_append D Hs H).
  symmetry. exact (proj1 (transform_past_end D Hs)).
Qed.

Lemma removelast_before {A : Type} (l : list A) (x : A) (j : nat) :
  S j < length l -> nth_error (removelast l ++ [x]) j = nth_error l j.
Proof.
  intros H. rewrite removelast_firstn_len.
  rewrite nth_error_app1 by (rewrite length_firstn; lia).
  rewrite nth_error_firstn.
  destruct (Nat.ltb_spec j (pred (length l))); [reflexivity | lia].
Qed.

Lemma removelast_last_index {A : Type} (l : list A) (x : A) :
  l <> [] -> nth_error (removelast l ++ [x]) (pred (length l)) = Some x.
Proof.
  intros H. rewrite removelast_firstn_len.
  assert (Hl : length (firstn (pred (length l)) l) = pred (length l))
    by (rewrite length_firstn; lia).
  rewrite nth_error_app2 by lia. rewrite Hl, Nat.sub_diag. reflexivity.
Qed.

Lemma removelast_app_length {A : Type} (l : list A) (x : A) :
  l <> [] -> length (removelast l ++ [x]) = length l.
Proof.
  intros H. rewrite removelast_firstn_len, length_app, length_firstn.
  destruct l; [congruence |]. simpl. lia.
Qed.

Lemma last_nth {A : Type} (l : list A) (d : A) :
  last l d = nth (pred (length l)) l d.
Proof.
  induction l as [|a l IH]; [reflexivity |].
  destruct l as [|b l]; [reflexivity |].
  change (last (a :: b :: l) d) with (last (b :: l) d). rewrite IH. reflexivity.
Qed.

(** C4, counterexample: a file of 574 lines whose last line has no line
    break.  The script appends the new text to the text it read, so the
    document it yields still has 574 lines: there is no line 574, and line
    573 is no longer the line that was read but that line followed by the
    new text. *)
Lemma insert_at_574_joins_open_last_line :
  length (readlines doc_574_open) = 574 /\
  written (AddSuggestionsState.run doc_574_open)
  = Some (doc_574_open ++ AddSuggestionsState.new_line) /\
  length (readlines (AddSuggestionsState.transform doc_574_open)) = 574 /\
  nth_error (readlines (AddSuggestionsState.transform doc_574_open)) 574 = None /\
  nth_error (readlines doc_574_open) 573 = Some (lit "export default App;") /\
  nth_error (readlines (AddSuggestionsState.transform doc_574_open)) 573
  = Some (lit "export default App;" ++ AddSuggestionsState.new_line).
Proof. repeat split; by_evaluation. Qed.

(** C4, amended: on a file of N lines, N at least 574, the document that
    add-suggestions-state.py yields is read line by line as follows.  When N
    is more than 574, or the text ends with a line break, it has N+1 lines,
    the new line is line 574, the lines before it are unchanged and every
    line from 574 on is found one position further.  When N is 574 and the
    last line has no line break, it has 574 lines still: lines 0 to 572 are
    unchanged, line 573 is the old line 573 followed by the new text, and
    there is no line 574. *)
Theorem insert_at_574_document_lines (D : str) :
  574 <= length (readlines D) ->
  let lines := readlines D in
  let out := readlines (AddSuggestionsState.transform D) in
  written (AddSuggestionsState.run D) = Some (AddSuggestionsState.transform D) /\
  (574 < length lines \/ terminated D = true ->
     length out = S (length lines) /\
     nth_error out 574 = Some AddSuggestionsState.new_line /\
     (forall j, j < 574 -> nth_error out j = nth_error lines j) /\
     (forall j, 574 <= j -> nth_error out (S j) = nth_error lines j)) /\
  (length lines = 574 -> terminated D = false ->
     length out = 574 /\
     nth_error out 574 = None /\
     nth_error out 573
     = Some (nth 573 lines [] ++ AddSuggestionsState.new_line) /\
     (forall j, j < 573 -> nth_error out j = nth_error lines j)).
Proof.
  intros H lines out. subst lines out.
  split; [reflexivity | split].
  - intros Hc. rewrite (reread_written_lines D Hc).
    exact (transform_lines_shifts (readlines D) H).
  - intros Hn Ht.
    assert (Hs : length (readlines D) < 575) by lia.
    rewrite (proj2 (transform_past_end D Hs)).
    rewrite (readlines_app_unterminated D _ Ht readlines_new_line).
    assert (Hne : readlines D <> [])
      by (intros E; rewrite E in Hn; discriminate).
    pose proof (removelast_app_length (readlines D)
                  (last (readlines D) [] ++ AddSuggestionsState.new_line) Hne) as Hlen.
    split; [exact (eq_trans Hlen Hn) |].
    split; [apply (proj2 (nth_error_None _ _)), Nat.eq_le_incl;
            exact (eq_trans Hlen Hn) |].
    split.
    + rewrite last_nth, Hn.
      pose proof (removelast_last_index (readlines D)
                    (nth 573 (readlines D) [] ++ AddSuggestionsState.new_line) Hne) as Hl.
      rewrite Hn in Hl. exact Hl.
    + intros j Hj. apply removelast_before. lia.
Qed.

Lemma insert_at_574_document_lines_witness :
  574 <= length (readlines doc_574_lines) /\
  terminated doc_574_lines = true /\
  length (readlines (AddSuggestionsState.transform doc_574_lines)) = 575 /\
  nth_error (readlines (AddSuggestionsState.transform doc_574_lines)) 574
  = Some AddSuggestionsState.new_line /\
  nth_error (readlines (AddSuggestionsState.transform doc_574_lines)) 573
  = Some (lit "// line" ++ nl).
Proof.
  assert (Hlen : length (readlines doc_574_lines) = 574) by (vm_compute; reflexivity).
  assert (H : 574 <= length (readlines doc_574_lines)) by (rewrite Hlen; lia).
  assert (Ht : terminated doc_574_lines = true) by (vm_compute; reflexivity).
  destruct (insert_at_574_document_lines _ H) as (_ & Hyes & _).
  destruct (Hyes (or_intror Ht)) as (H1 & H2 & H3 & _).
  split; [exact H | split; [exact Ht | split; [| split; [exact H2 |]]]].
  - rewrite H1, Hlen. reflexivity.
  - rewrite (H3 573) by lia. vm_compute. reflexivity.
Defined.
(** ** Substitution with [re.sub] *)

Lemma sub_loop_exhausted (fuel : nat) (r : Re.node) (t : list Re.titem) (s : str) :
  Re.sub_loop fuel r t (Some 0) s = s.
Proof. destruct fuel; reflexivity. Qed.

(** With [count=1] the leftmost match, if there is one, is replaced by the
    expansion of the template, and the text around it is kept. *)
Lemma sub_loop_once (fuel : nat) (r : Re.node) (t : list Re.titem) (s : str) :
  Re.sub_loop (S fuel) r t (Some 1) s =
  match Re.search r s with
  | None => s
  | Some (before, cs, rest) => before ++ Re.expand t cs ++ rest
  end.
Proof.
  simpl. destruct (Re.search r s) as [[[before cs] rest]|]; [| reflexivity].
  do 2 f_equal.
  destruct (Re.group 0 cs); destruct rest; simpl;
    now rewrite ?sub_loop_exhausted.
Qed.

Lemma sub_compiled (p t s : str) (count : nat)
    (r : Re.node) (g : nat) (tt : list Re.titem) :
  Re.compile p = Re.Ok (r, g) ->
  Re.parse_template t = Re.Ok tt ->
  Re.refs_ok g tt = true ->
  Re.sub p t s count =
  Re.Ok (Re.sub_loop (S (length s)) r tt
           (match count with O => None | S _ => Some count end) s).
Proof.
  intros Hp Ht Hr. unfold Re.sub. rewrite Hp. simpl. rewrite Ht. simpl.
  now rewrite Hr.
Qed.

Lemma sub_refused (p t s : str) (count : nat) (e : Re.error) :
  Re.compile p = Re.Err e -> Re.sub p t s count = Re.Err e.
Proof. intros Hp. unfold Re.sub. now rewrite Hp. Qed.

Lemma expand_literals (b : str) (cs : Re.captures) :
  Re.expand (map Re.TLit b) cs = b.
Proof.
  unfold Re.expand. induction b as [|c b IH]; simpl; [reflexivity | now rewrite IH].
Qed.

Lemma str_in_join (x sep : str) (l : list str) :
  In x l -> str_in x (str_join sep l) = true.
Proof.
  induction l as [|y l IH]; intros H; [destruct H |].
  destruct H as [-> | H].
  - destruct l; simpl; [| apply str_in_here].
    apply str_in_iff. exists [], []. now rewrite app_nil_r.
  - destruct l as [|z l]; [destruct H |].
    change (str_join sep (y :: z :: l)) with (y ++ sep ++ str_join sep (z :: l)).
    now apply str_in_app_r, str_in_app_r, IH.
Qed.

Lemma list_insert_In {A : Type} (i : nat) (x : A) (l : list A) :
  In x (list_insert i x l).
Proof. unfold list_insert. apply in_or_app. right. now left. Qed.

(** ** The guarded edits of edit-chat.py *)

Lemma old_response_nonempty : EditChat.old_response <> [].
Proof. discriminate. Qed.

(** The template is a reference to group 1 followed by literal text. *)
Lemma replacement_template :
  Re.parse_template EditChat.replacement
  = Re.Ok (Re.TRef 1 :: map Re.TLit (skipn 2 EditChat.replacement)).
Proof. by_evaluation. Qed.

(** The substitution never raises; its result is the content itself when
    the pattern does not match, and otherwise holds the text of the
    template. *)
Lemma chat_sub (content : str) :
  exists X,
    Re.sub EditChat.pattern EditChat.replacement content 1 = Re.Ok X /\
    (X = content \/
     exists before g rest,
       X = before ++ (g ++ skipn 2 EditChat.replacement) ++ rest).
Proof.
  assert (Hc : exists r, Re.compile EditChat.pattern = Re.Ok (r, 1))
    by (eexists; by_evaluation).
  destruct Hc as [r Hc].
  rewrite (sub_compiled _ _ content 1 r 1 _ Hc replacement_template)
    by by_evaluation.
  rewrite sub_loop_once. eexists. split; [reflexivity |].
  destruct (Re.search r content) as [[[before cs] rest]|]; [right | now left].
  exists before, (Re.group 1 cs), rest.
  unfold Re.expand. cbn [flat_map]. fold (Re.expand (map Re.TLit (skipn 2 EditChat.replacement)) cs).
  now rewrite expand_literals.
Qed.

(** After the first block the import name is in the content. *)
Lemma add_import_present (content : str) :
  str_in (lit "createTodosFromAIRecommendations")
         (fst (EditChat.add_import content)) = true.
Proof.
  unfold EditChat.add_import.
  destruct (str_in (lit "createTodosFromAIRecommendations") content) eqn:E;
    [exact E |].
  cbv zeta. simpl fst.
  apply (str_in_trans _ EditChat.import_line); [by_evaluation |].
  apply str_in_join, list_insert_In.
Qed.

(** The second block keeps the import name, and its result is a content on
    which it does nothing more. *)
Lemma add_todos_settles (content : str) :
  str_in (lit "createTodosFromAIRecommendations") content = true ->
  exists content',
    (r <- EditChat.add_todos content ;; Re.Ok (fst r)) = Re.Ok content' /\
    str_in (lit "createTodosFromAIRecommendations") content' = true /\
    (r <- EditChat.add_todos content' ;; Re.Ok (fst r)) = Re.Ok content'.
Proof.
  intros Himp.
  destruct (str_in (lit "autoCreatedTodos") content) eqn:Etodo.
  - (* the guard holds: nothing is done, now or later *)
    exists content. unfold EditChat.add_todos. rewrite Etodo. now repeat split.
  - destruct (chat_sub content) as (X & HX & Hshape).
    set (Y := str_replace X EditChat.old_response EditChat.new_response).
    assert (Hfirst : (r <- EditChat.add_todos content ;; Re.Ok (fst r)) = Re.Ok Y).
    { unfold EditChat.add_todos. rewrite Etodo, HX. reflexivity. }
    assert (Hkeep : forall w,
               clear_of w EditChat.old_response = true ->
               clear_after EditChat.old_response w = true ->
               str_in w X = true -> str_in w Y = true).
    { intros w H1 H2. now apply replace_keeps_present; [exact old_response_nonempty | |]. }
    assert (HimpX : str_in (lit "createTodosFromAIRecommendations") X = true).
    { destruct Hshape as [-> | (before & g & rest & ->)]; [exact Himp |].
      apply str_in_app_r, str_in_app_l, str_in_app_r. by_evaluation. }
    exists Y. split; [exact Hfirst | split].
    + apply Hkeep; [by_evaluation | by_evaluation | exact HimpX].
    + destruct (str_in (lit "autoCreatedTodos") Y) eqn:E.
      * (* something was inserted: the guard holds on the result *)
        unfold EditChat.add_todos. now rewrite E.
      * (* nothing was inserted: the pattern did not match and the response
           block is absent, so the result is the content itself *)
        assert (HX' : X = content).
        { destruct Hshape as [-> | (before & g & rest & ->)]; [reflexivity |].
          exfalso. rewrite Hkeep in E; [discriminate | by_evaluation | by_evaluation |].
          apply str_in_app_r, str_in_app_l, str_in_app_r. by_evaluation. }
        assert (HY : Y = content).
        { unfold Y. rewrite HX'. apply replace_absent; [exact old_response_nonempty |].
          destruct (str_in EditChat.old_response content) eqn:Eo; [| reflexivity].
          exfalso.
          assert (Hn : str_in EditChat.new_response Y = true)
            by (unfold Y; rewrite HX';
                now apply replace_present; [exact old_response_nonempty |]).
          assert (Ha : str_in (lit "autoCreatedTodos") EditChat.new_response = true)
            by by_evaluation.
          rewrite (str_in_trans _ _ _ Ha Hn) in E. discriminate. }
        rewrite HY in *. exact Hfirst.
Qed.

Lemma chat_run_transform (D : str) :
  written (EditChat.run D)
  = match EditChat.transform D with Re.Ok c => Some c | Re.Err _ => None end /\
  raised (EditChat.run D)
  = match EditChat.transform D with Re.Ok _ => false | Re.Err _ => true end.
Proof.
  unfold EditChat.run, EditChat.transform.
  destruct (EditChat.add_import D) as [content out1]. simpl fst.
  destruct (EditChat.add_todos content) as [[content' out2] | e]; now split.
Qed.

(** C2: the content transformation of edit-chat.py is idempotent.  The
    script never raises; the content it writes holds the import name, so the
    first guard skips the import on a second run, and either it holds
    autoCreatedTodos, so the second guard skips the rest, or nothing matched
    and nothing matches again: the second run writes the same content. *)
Theorem edit_chat_idempotent (D : str) :
  exists D1,
    EditChat.transform D = Re.Ok D1 /\
    EditChat.transform D1 = Re.Ok D1 /\
    written (EditChat.run D) = Some D1 /\
    written (EditChat.run D1) = Some D1 /\
    fst (EditChat.add_import D1) = D1.
Proof.
  destruct (add_todos_settles _ (add_import_present D)) as (D1 & H1 & Himp & H2).
  assert (Hskip : fst (EditChat.add_import D1) = D1)
    by (unfold EditChat.add_import; now rewrite Himp).
  assert (Ht1 : EditChat.transform D = Re.Ok D1) by exact H1.
  assert (Ht2 : EditChat.transform D1 = Re.Ok D1)
    by (unfold EditChat.transform; now rewrite Hskip).
  exists D1. repeat split; try assumption.
  - rewrite (proj1 (chat_run_transform D)). now rewrite Ht1.
  - rewrite (proj1 (chat_run_transform D1)). now rewrite Ht2.
Qed.

(** The edits on a sample endpoint, and a second run on the result. *)
Example edit_chat_sample :
  EditChat.transform doc_chat = Re.Ok doc_chat_patched /\
  EditChat.transform doc_chat_patched = Re.Ok doc_chat_patched.
Proof. split; by_evaluation. Qed.

(** ** The substitutions of rename-components.py *)

Lemma sub_accepted (p t s : str) (count : nat) :
  accepted (p, t) = true -> exists s', Re.sub p t s count = Re.Ok s'.
Proof.
  unfold accepted. simpl fst; simpl snd.
  destruct (Re.compile p) as [[r g] |] eqn:Hp; [| discriminate].
  destruct (Re.parse_template t) as [tt |] eqn:Ht; [| discriminate].
  intros Hr. eexists. now apply (sub_compiled p t s count r g tt).
Qed.

Lemma apply_replacements_accepted (rs : list (str * str)) :
  forallb accepted rs = true ->
  forall content, exists content',
    RenameComponents.apply_replacements rs content = Re.Ok content'.
Proof.
  induction rs as [|[p t] rs IH]; intros H content; simpl.
  - now exists content.
  - simpl in H. apply andb_true_iff in H as [Hpt Hrs].
    destruct (sub_accepted p t content 0 Hpt) as [c Hc]. rewrite Hc. simpl.
    now apply IH.
Qed.

(** The substitutions of the declarations use raw templates: there the
    captured text is put back. *)
Lemma declaration_backreference :
  Re.sub (fst (hd ([], []) RenameComponents.replacements))
         (snd (hd ([], []) RenameComponents.replacements))
         (lit "1999:const CompetitorCard = styled.div`") 0
  = Re.Ok (lit "1999:const CompetitorKeywordCard = styled.div`").
Proof. by_evaluation. Qed.

(** The first JSX pattern opens a group that it never closes. *)
Lemma card_pattern_refused :
  Re.compile (lit "<CompetitorCard([^>]*key={index}") = Re.Err Re.missing_paren.
Proof. by_evaluation. Qed.

(** Whatever the file holds, the script stops with [re.error] at the first
    JSX substitution and writes nothing. *)
Lemma rename_components_raises (D : str) :
  RenameComponents.run D = {| written := None; printed := []; raised := true |}.
Proof.
  unfold RenameComponents.run, RenameComponents.transform.
  destruct (apply_replacements_accepted RenameComponents.replacements
              ltac:(by_evaluation) D) as [c Hc].
  rewrite Hc. simpl Re.bind. unfold RenameComponents.jsx_usage.
  now rewrite (sub_refused _ (lit "<CompetitorKeywordCard" ++ [1%N]) c 0 _
                 card_pattern_refused).
Qed.

(** C5 (fails on the code): on the document
    [<CompetitorBadge variant="top">Leader</CompetitorBadge>] the
    CompetitorBadge substitution, taken alone, replaces the tag and its
    attribute text by the new tag name and the character U+0001, because
    the replacement string is not a raw literal (a raw one would have put
    the attribute text back); the CompetitorMetricLabel substitution does
    the same; and the script as a whole raises at the first JSX pattern,
    whatever the document, and writes nothing. *)
Theorem rename_components_loses_attribute_text :
  Re.sub (lit "<CompetitorBadge([^>]*>)") (lit "<CompetitorKeywordBadge" ++ [1%N])
         doc_badge 0
  = Re.Ok (lit "<CompetitorKeywordBadge" ++ [1%N] ++ lit "Leader</CompetitorBadge>") /\
  Re.sub (lit "<CompetitorBadge([^>]*>)") (lit "<CompetitorKeywordBadge\1")
         doc_badge 0
  = Re.Ok (lit "<CompetitorKeywordBadge variant=" ++ dq ++ lit "top" ++ dq
           ++ lit ">Leader</CompetitorBadge>") /\
  Re.sub (lit "<CompetitorMetricLabel([^>]*" ++ lit ")>")
         (lit "<CompetitorKeywordMetricLabel" ++ [1%N] ++ lit ">") doc_label 0
  = Re.Ok (lit "<CompetitorKeywordMetricLabel" ++ [1%N]
           ++ lit ">CTR</CompetitorMetricLabel>") /\
  RenameComponents.transform doc_badge = Re.Err Re.missing_paren /\
  forall D, RenameComponents.run D
            = {| written := None; printed := []; raised := true |}.
Proof.
  split; [by_evaluation | split; [by_evaluation | split; [by_evaluation |]]].
  split; [by_evaluation | exact rename_components_raises].
Qed.

(** * Further properties of the scripts *)

(** ** More on [str.replace] *)

Section ReplaceCounts.

Variables old new : str.
Hypothesis old_nonempty : old <> [].

(** A locator that cannot overlap itself is counted once per replacement. *)
Lemma occurrences_hit (t : str) :
  clear_after old old = true ->
  occurrences old (old ++ t) = S (occurrences old t).
Proof.
  intros Hoo. destruct old as [|y o'] eqn:Eo; [congruence |].
  unfold clear_after in Hoo. simpl tl in Hoo.
  change ((y :: o') ++ t) with (y :: (o' ++ t)). cbn [occurrences].
  change (y :: o' ++ t) with ((y :: o') ++ t).
  now rewrite startswith_app, occurrences_app_clear.
Qed.

Lemma occurrences_miss (w : str) (c : char) (s : str) :
  startswith w (c :: s) = false ->
  occurrences w (c :: s) = occurrences w s.
Proof. intros H. cbn [occurrences]. now rewrite H. Qed.

(** The length of the result, from the number of occurrences. *)
Lemma replace_length (s : str) :
  clear_after old old = true ->
  length (str_replace s old new) + occurrences old s * length old
  = length s + occurrences old s * length new.
Proof.
  intros Hoo.
  induction s as [| t IH | c s Hc IH] using (replace_ind old old_nonempty).
  - rewrite replace_nil by exact old_nonempty.
    rewrite occurrences_short; [reflexivity |].
    destruct old; [congruence | simpl; lia].
  - rewrite replace_hit, occurrences_hit, !length_app by assumption. lia.
  - rewrite replace_miss, occurrences_miss by assumption. simpl. lia.
Qed.

(** A word apart from locator and payload occurs as often after the
    replacement as before. *)
Lemma replace_occurrences_other (w s : str) :
  clear_of old w = true -> clear_of new w = true ->
  clear_after w old = true -> clear_after w new = true ->
  occurrences w (str_replace s old new) = occurrences w s.
Proof.
  intros How Hnw Hwo Hwn.
  induction s as [| t IH | c s Hc IH] using (replace_ind old old_nonempty).
  - now rewrite replace_nil.
  - now rewrite replace_hit, !occurrences_app_clear.
  - rewrite replace_miss by assumption. cbn [occurrences]. rewrite IH.
    destruct (startswith w (c :: s)) eqn:E.
    + apply startswith_iff in E as [r Hr].
      destruct w as [|x w']; [now destruct (str_replace s old new) |].
      injection Hr as -> ->.
      unfold clear_after in Hwo. simpl tl in Hwo.
      rewrite replace_frame by assumption.
      change (x :: w' ++ str_replace r old new)
        with ((x :: w') ++ str_replace r old new).
      now rewrite startswith_app.
    + now rewrite (replace_miss_stays old new old_nonempty w c s Hwn E).
Qed.

End ReplaceCounts.

(** Replacing a locator by itself changes nothing. *)
Lemma replace_self (old s : str) : old <> [] -> str_replace s old old = s.
Proof.
  intros Hold.
  induction s as [| t IH | c s Hc IH] using (replace_ind old Hold).
  - now apply replace_nil.
  - now rewrite replace_hit, IH.
  - now rewrite replace_miss, IH.
Qed.

(** The result differs from the source as soon as the locator occurs and
    the payload has another length. *)
Lemma replace_changes (old new s : str) :
  old <> [] -> length old < length new -> str_in old s = true ->
  length s < length (str_replace s old new).
Proof.
  intros Hold Hlen Hin.
  rewrite <- (replace_self old s Hold) at 1.
  now apply replace_length_lt.
Qed.

(** A payload that ends with the locator: the locator occurs as often after
    the replacement as before. *)
Lemma replace_occurrences_before (old h s : str) :
  old <> [] ->
  clear_of h old = true -> clear_after old old = true ->
  clear_after old (h ++ old) = true ->
  occurrences old (str_replace s old (h ++ old)) = occurrences old s.
Proof.
  intros Hold Hh Hoo Hon.
  induction s as [| t IH | c s Hc IH] using (replace_ind old Hold).
  - now rewrite replace_nil.
  - rewrite replace_hit, <- app_assoc, occurrences_app_clear by assumption.
    now rewrite !occurrences_hit, IH.
  - rewrite replace_miss, !occurrences_miss, IH; try assumption; try reflexivity.
    now apply replace_miss_stays.
Qed.

(** With such a payload a second pass finds every occurrence again, at the
    end of the payload it inserted, and inserts the text before it once
    more. *)
Lemma replace_twice_before (old h s : str) :
  old <> [] ->
  clear_of h old = true -> clear_after old (h ++ old) = true ->
  str_replace (str_replace s old (h ++ old)) old (h ++ old)
  = str_replace s old (h ++ h ++ old).
Proof.
  intros Hold Hh Hon.
  induction s as [| t IH | c s Hc IH] using (replace_ind old Hold).
  - now rewrite !replace_nil.
  - rewrite (replace_hit old (h ++ old)), <- app_assoc by exact Hold.
    rewrite replace_frame, replace_hit, IH by assumption.
    rewrite (replace_hit old (h ++ h ++ old)) by exact Hold.
    now rewrite <- !app_assoc.
  - rewrite (replace_miss old (h ++ old)) by assumption.
    rewrite replace_miss by (try apply replace_miss_stays; assumption).
    rewrite IH. now rewrite (replace_miss old (h ++ h ++ old)) by assumption.
Qed.

(** A payload apart from the locator: each replacement adds one occurrence
    of the payload to those already there. *)
Lemma replace_occurrences_payload (old new s : str) :
  old <> [] ->
  clear_after old old = true -> clear_of old new = true ->
  clear_after new new = true -> clear_after new old = true ->
  occurrences new (str_replace s old new) = occurrences new s + occurrences old s.
Proof.
  intros Hold Hoo Hon Hnn Hno.
  assert (Hnew : new <> []).
  { intros ->. destruct old; [congruence | discriminate]. }
  induction s as [| t IH | c s Hc IH] using (replace_ind old Hold).
  - rewrite replace_nil by exact Hold. simpl.
    destruct new; [congruence |]. destruct old; [congruence | reflexivity].
  - rewrite replace_hit, !occurrences_hit, occurrences_app_clear, IH by assumption.
    lia.
  - rewrite replace_miss, (occurrences_miss old c s Hc) by assumption.
    cbn [occurrences]. rewrite IH.
    destruct (startswith new (c :: s)) eqn:E.
    + apply startswith_iff in E as [r Hr].
      destruct new as [|x n']; [congruence |]. injection Hr as -> ->.
      unfold clear_after in Hno. simpl tl in Hno.
      rewrite replace_frame by assumption.
      change (x :: n' ++ str_replace r old (x :: n'))
        with ((x :: n') ++ str_replace r old (x :: n')).
      rewrite startswith_app. lia.
    + rewrite (replace_miss_stays old new Hold new c s Hnn E). lia.
Qed.

Lemma occurrences_zero_inv (w s : str) :
  occurrences w s = 0 -> str_in w s = false.
Proof.
  intros H. destruct (str_in w s) eqn:E; [| reflexivity].
  apply occurrences_pos in E. lia.
Qed.

(** ** fix-categories.py, beyond the two replacements *)

Lemma fix_categories_clean (D : str) :
  str_in FixCategories.old_romance (FixCategories.transform D) = false /\
  str_in FixCategories.old_drama (FixCategories.transform D) = false.
Proof.
  unfold FixCategories.transform; cbv zeta. split.
  - apply replace_keeps_absent; try by_evaluation.
    + exact old_drama_nonempty.
    + apply replace_removes; try by_evaluation. exact old_romance_nonempty.
  - apply replace_removes; try by_evaluation. exact old_drama_nonempty.
Qed.

Lemma fix_categories_length_law (D : str) :
  length (FixCategories.transform D)
  = length D + 5 * occurrences FixCategories.old_romance D
    + 6 * occurrences FixCategories.old_drama D.
Proof.
  unfold FixCategories.transform; cbv zeta.
  pose proof (replace_length FixCategories.old_romance FixCategories.new_romance
                old_romance_nonempty D ltac:(by_evaluation)) as H1.
  pose proof (replace_length FixCategories.old_drama FixCategories.new_drama
                old_drama_nonempty
                (str_replace D FixCategories.old_romance FixCategories.new_romance)
                ltac:(by_evaluation)) as H2.
  rewrite (replace_occurrences_other FixCategories.old_romance
             FixCategories.new_romance old_romance_nonempty
             FixCategories.old_drama D) in H2 by by_evaluation.
  replace (length FixCategories.old_romance) with 19 in H1 by by_evaluation.
  replace (length FixCategories.new_romance) with 24 in H1 by by_evaluation.
  replace (length FixCategories.old_drama) with 17 in H2 by by_evaluation.
  replace (length FixCategories.new_drama) with 23 in H2 by by_evaluation.
  lia.
Qed.

(** X1: fix-categories.py is idempotent: a second run on the file it wrote
    writes the same file, since no locator is left to replace. *)
Theorem fix_categories_idempotent (D : str) :
  FixCategories.transform (FixCategories.transform D) = FixCategories.transform D.
Proof.
  destruct (fix_categories_clean D) as [Hr Hd].
  unfold FixCategories.transform at 1; cbv zeta.
  rewrite (replace_absent _ _ old_romance_nonempty _ Hr).
  now apply replace_absent; [exact old_drama_nonempty |].
Qed.

(** X2: the file fix-categories.py writes is longer than the file it read
    by 5 characters for each occurrence of the romance locator and 6 for
    each occurrence of the drama locator; it is never shorter. *)
Theorem fix_categories_length (D : str) :
  length (FixCategories.transform D)
  = length D + 5 * occurrences FixCategories.old_romance D
    + 6 * occurrences FixCategories.old_drama D /\
  length D <= length (FixCategories.transform D).
Proof.
  pose proof (fix_categories_length_law D). split; [assumption | lia].
Qed.

(** X3: fix-categories.py writes back the very text it read exactly when
    neither locator occurs in it. *)
Theorem fix_categories_unchanged_iff (D : str) :
  FixCategories.transform D = D <->
  str_in FixCategories.old_romance D = false /\
  str_in FixCategories.old_drama D = false.
Proof.
  split.
  - intros H. apply (f_equal (@length char)) in H.
    rewrite fix_categories_length_law in H.
    split; apply occurrences_zero_inv; lia.
  - intros [Hr Hd]. unfold FixCategories.transform; cbv zeta.
    rewrite (replace_absent _ _ old_romance_nonempty D Hr).
    now apply replace_absent; [exact old_drama_nonempty |].
Qed.

(** X4: after fix-categories.py every romance category is a Contemporary
    one and every drama category a Billionaire one: each payload occurs as
    often as it did before plus once for each occurrence of its locator. *)
Theorem fix_categories_payload_counts (D : str) :
  occurrences FixCategories.new_romance (FixCategories.transform D)
  = occurrences FixCategories.new_romance D
    + occurrences FixCategories.old_romance D /\
  occurrences FixCategories.new_drama (FixCategories.transform D)
  = occurrences FixCategories.new_drama D
    + occurrences FixCategories.old_drama D.
Proof.
  unfold FixCategories.transform; cbv zeta. split.
  - rewrite (replace_occurrences_other FixCategories.old_drama
               FixCategories.new_drama old_drama_nonempty
               FixCategories.new_romance) by by_evaluation.
    apply replace_occurrences_payload; try by_evaluation.
    exact old_romance_nonempty.
  - rewrite replace_occurrences_payload; try by_evaluation;
      [| exact old_drama_nonempty].
    now rewrite !(replace_occurrences_other FixCategories.old_romance
                    FixCategories.new_romance old_romance_nonempty)
      by by_evaluation.
Qed.

Example fix_categories_sample :
  FixCategories.transform doc_stories
  = str_join nl
      [ lit "{ title: 'A', category: 'Contemporary' },";
        lit "{ title: 'B', category: 'Billionaire' },";
        lit "{ title: 'C', category: 'Contemporary' }";
        [] ].
Proof. by_evaluation. Qed.

(** ** add-revenue-router.py as a whole *)

Lemma import_directive_clean (s : str) :
  str_in AddRevenueRouter.old_import
    (str_replace s AddRevenueRouter.old_import AddRevenueRouter.new_import) = false.
Proof. apply replace_removes; try by_evaluation. exact old_import_nonempty. Qed.

Lemma route_directive_keeps_import_absent (s : str) :
  str_in AddRevenueRouter.old_import s = false ->
  str_in AddRevenueRouter.old_import (AddRevenueRouter.route_directive s) = false.
Proof.
  apply replace_keeps_absent; try by_evaluation. exact old_route_nonempty.
Qed.

Lemma import_directive_route_locator (s : str) :
  str_in AddRevenueRouter.old_route
    (str_replace s AddRevenueRouter.old_import AddRevenueRouter.new_import)
  = str_in AddRevenueRouter.old_route s.
Proof.
  destruct (str_in AddRevenueRouter.old_route s) eqn:E.
  - apply replace_keeps_present; try by_evaluation; [exact old_import_nonempty | exact E].
  - apply replace_keeps_absent; try by_evaluation; [exact old_import_nonempty | exact E].
Qed.

Lemma route_directive_grows (s : str) :
  str_in AddRevenueRouter.old_route s = true ->
  length s < length (AddRevenueRouter.route_directive s).
Proof.
  apply replace_changes; [exact old_route_nonempty | vm_compute; lia].
Qed.

Lemma route_directive_keeps_locator (s : str) :
  str_in AddRevenueRouter.old_route s = true ->
  str_in AddRevenueRouter.old_route (AddRevenueRouter.route_directive s) = true.
Proof.
  intros H. apply (str_in_trans _ AddRevenueRouter.new_route); [by_evaluation |].
  now apply replace_present; [exact old_route_nonempty |].
Qed.

(** On its own output the script skips the import and runs the route
    directive once more. *)
Lemma revenue_router_second_run (D : str) :
  AddRevenueRouter.transform (AddRevenueRouter.transform D)
  = AddRevenueRouter.route_directive (AddRevenueRouter.transform D).
Proof.
  unfold AddRevenueRouter.transform at 1; cbv zeta. f_equal.
  apply replace_absent; [exact old_import_nonempty |].
  unfold AddRevenueRouter.transform; cbv zeta.
  apply route_directive_keeps_import_absent, import_directive_clean.
Qed.

Lemma revenue_router_length_law (D : str) :
  length (AddRevenueRouter.transform D)
  = length D + 46 * occurrences AddRevenueRouter.old_import D
    + 40 * occurrences AddRevenueRouter.old_route D.
Proof.
  unfold AddRevenueRouter.transform, AddRevenueRouter.route_directive; cbv zeta.
  pose proof (replace_length AddRevenueRouter.old_import AddRevenueRouter.new_import
                old_import_nonempty D ltac:(by_evaluation)) as H1.
  pose proof (replace_length AddRevenueRouter.old_route AddRevenueRouter.new_route
                old_route_nonempty
                (str_replace D AddRevenueRouter.old_import AddRevenueRouter.new_import)
                ltac:(by_evaluation)) as H2.
  rewrite (replace_occurrences_other AddRevenueRouter.old_import
             AddRevenueRouter.new_import old_import_nonempty
             AddRevenueRouter.old_route D) in H2 by by_evaluation.
  replace (length AddRevenueRouter.old_import) with 71 in H1 by by_evaluation.
  replace (length AddRevenueRouter.new_import) with 117 in H1 by by_evaluation.
  replace (length AddRevenueRouter.old_route) with 43 in H2 by by_evaluation.
  replace (length AddRevenueRouter.new_route) with 83 in H2 by by_evaluation.
  lia.
Qed.

(** X5: the import edit of add-revenue-router.py guards itself: the text
    the script writes never holds the import locator, so a second run adds
    no second import line; the revenue import occurs once for each import
    locator of the input, besides those already there. *)
Theorem revenue_router_import_added_once (D : str) :
  str_in AddRevenueRouter.old_import (AddRevenueRouter.transform D) = false /\
  occurrences AddRevenueRouter.new_import (AddRevenueRouter.transform D)
  = occurrences AddRevenueRouter.new_import D
    + occurrences AddRevenueRouter.old_import D /\
  occurrences AddRevenueRouter.new_import
    (AddRevenueRouter.transform (AddRevenueRouter.transform D))
  = occurrences AddRevenueRouter.new_import (AddRevenueRouter.transform D).
Proof.
  assert (Hkeep : forall s,
             occurrences AddRevenueRouter.new_import (AddRevenueRouter.route_directive s)
             = occurrences AddRevenueRouter.new_import s).
  { intros s. apply replace_occurrences_other; try by_evaluation.
    exact old_route_nonempty. }
  split; [| split].
  - unfold AddRevenueRouter.transform; cbv zeta.
    apply route_directive_keeps_import_absent, import_directive_clean.
  - unfold AddRevenueRouter.transform; cbv zeta. rewrite Hkeep.
    apply replace_occurrences_payload; try by_evaluation.
    exact old_import_nonempty.
  - now rewrite revenue_router_second_run, Hkeep.
Qed.

(** X6: add-revenue-router.py is idempotent exactly on the documents
    without the route locator: when the locator occurs, every further run
    makes the file longer. *)
Theorem revenue_router_idempotent_iff (D : str) :
  AddRevenueRouter.transform (AddRevenueRouter.transform D)
  = AddRevenueRouter.transform D
  <-> str_in AddRevenueRouter.old_route D = false.
Proof.
  rewrite revenue_router_second_run.
  assert (Hloc : str_in AddRevenueRouter.old_route (AddRevenueRouter.transform D)
                 = str_in AddRevenueRouter.old_route D).
  { unfold AddRevenueRouter.transform; cbv zeta.
    destruct (str_in AddRevenueRouter.old_route D) eqn:E.
    - apply route_directive_keeps_locator. now rewrite import_directive_route_locator.
    - unfold AddRevenueRouter.route_directive.
      rewrite replace_absent; [| exact old_route_nonempty |];
        now rewrite import_directive_route_locator. }
  split.
  - intros H. destruct (str_in AddRevenueRouter.old_route D) eqn:E; [| reflexivity].
    apply (f_equal (@length char)) in H.
    pose proof (route_directive_grows _ Hloc). lia.
  - intros E. rewrite E in Hloc.
    now apply replace_absent; [exact old_route_nonempty |].
Qed.

(** X7: the file add-revenue-router.py writes is longer than the file it
    read by 46 characters for each import locator and 40 for each route
    locator; it is the same text exactly when neither locator occurs. *)
Theorem revenue_router_length (D : str) :
  length (AddRevenueRouter.transform D)
  = length D + 46 * occurrences AddRevenueRouter.old_import D
    + 40 * occurrences AddRevenueRouter.old_route D /\
  (AddRevenueRouter.transform D = D <->
   str_in AddRevenueRouter.old_import D = false /\
   str_in AddRevenueRouter.old_route D = false).
Proof.
  split; [apply revenue_router_length_law |]. split.
  - intros H. apply (f_equal (@length char)) in H.
    rewrite revenue_router_length_law in H.
    split; apply occurrences_zero_inv; lia.
  - intros [Hi Hr].
    unfold AddRevenueRouter.transform, AddRevenueRouter.route_directive; cbv zeta.
    rewrite (replace_absent _ _ old_import_nonempty D Hi).
    now apply replace_absent; [exact old_route_nonempty |].
Qed.

(** ** add_helpers.py when the marker is there *)

Lemma marker_nonempty : AddHelpers.marker <> [].
Proof. discriminate. Qed.

Lemma add_helpers_file_after (D : str) :
  file_after D (AddHelpers.run D)
  = str_replace D AddHelpers.marker (AddHelpers.helper_code ++ AddHelpers.marker).
Proof.
  unfold file_after, AddHelpers.run.
  destruct (str_in AddHelpers.marker D) eqn:E; [reflexivity |].
  cbn [written]. symmetry. now apply replace_absent; [exact marker_nonempty |].
Qed.

(** X8: when the marker occurs, add_helpers.py writes the text it read
    with the helper code put in front of every occurrence of the marker
    that a left-to-right scan finds, and nothing else changed; it prints
    the success line and does not raise. *)
Theorem add_helpers_inserts_before_every_marker (D : str) :
  str_in AddHelpers.marker D = true ->
  exists us,
    leftmost_split AddHelpers.marker us /\
    D = str_join AddHelpers.marker us /\
    AddHelpers.run D =
      {| written := Some (str_join (AddHelpers.helper_code ++ AddHelpers.marker) us);
         printed := [[9989%N] ++ lit " Helper functions added successfully"];
         raised := false |}.
Proof.
  intros H.
  destruct (replace_split AddHelpers.marker
              (AddHelpers.helper_code ++ AddHelpers.marker) marker_nonempty D)
    as (us & Hus & HD & Hout).
  exists us. split; [exact Hus | split; [exact HD |]].
  unfold AddHelpers.run. now rewrite H, Hout.
Qed.

Lemma add_helpers_inserts_before_every_marker_witness :
  str_in AddHelpers.marker doc_library = true /\
  written (AddHelpers.run doc_library)
  = Some (str_join nl
            [ lit "function ContentLibrary() {";
              AddHelpers.helper_code ++ AddHelpers.marker;
              lit "    setSelectedVideo(post);";
              lit "  };";
              lit "}";
              [] ]).
Proof.
  assert (H : str_in AddHelpers.marker doc_library = true) by (vm_compute; reflexivity).
  destruct (add_helpers_inserts_before_every_marker doc_library H)
    as (us & _ & _ & Hrun).
  split; [exact H |]. vm_compute. reflexivity.
Defined.

(** X9: add_helpers.py keeps the number of markers and makes the file
    longer by the 3451 characters of the helper code for each of them. *)
Theorem add_helpers_counts (D : str) :
  occurrences AddHelpers.marker (file_after D (AddHelpers.run D))
  = occurrences AddHelpers.marker D /\
  length (file_after D (AddHelpers.run D))
  = length D + 3451 * occurrences AddHelpers.marker D.
Proof.
  rewrite add_helpers_file_after. split.
  - apply replace_occurrences_before; try by_evaluation. exact marker_nonempty.
  - pose proof (replace_length AddHelpers.marker
                  (AddHelpers.helper_code ++ AddHelpers.marker)
                  marker_nonempty D ltac:(by_evaluation)) as H.
    rewrite length_app in H.
    replace (length AddHelpers.helper_code) with 3451 in H by by_evaluation.
    lia.
Qed.

(** X10: add_helpers.py does not guard against a second run: on a file
    that holds the marker, a second run finds the marker again and puts the
    helper code in front of it once more, so the file holds the helper code
    twice in front of every marker and is longer than after the first
    run. *)
Theorem add_helpers_second_run (D : str) :
  str_in AddHelpers.marker D = true ->
  let D1 := file_after D (AddHelpers.run D) in
  str_in AddHelpers.marker D1 = true /\
  file_after D1 (AddHelpers.run D1)
  = str_replace D AddHelpers.marker
      (AddHelpers.helper_code ++ AddHelpers.helper_code ++ AddHelpers.marker) /\
  length D1 < length (file_after D1 (AddHelpers.run D1)).
Proof.
  intros H D1. subst D1. rewrite !add_helpers_file_after.
  assert (H1 : str_in AddHelpers.marker
                 (str_replace D AddHelpers.marker
                    (AddHelpers.helper_code ++ AddHelpers.marker)) = true).
  { apply (str_in_trans _ (AddHelpers.helper_code ++ AddHelpers.marker)).
    - apply str_in_app_r, str_in_iff. exists [], []. now rewrite app_nil_r.
    - now apply replace_present; [exact marker_nonempty |]. }
  split; [exact H1 | split].
  - apply replace_twice_before; try by_evaluation. exact marker_nonempty.
  - apply replace_changes; [exact marker_nonempty | | exact H1].
    rewrite length_app. replace (length AddHelpers.helper_code) with 3451 by by_evaluation.
    lia.
Qed.

Lemma add_helpers_second_run_witness :
  str_in AddHelpers.marker doc_library = true /\
  occurrences AddHelpers.helper_code
    (file_after (file_after doc_library (AddHelpers.run doc_library))
       (AddHelpers.run (file_after doc_library (AddHelpers.run doc_library)))) = 2.
Proof.
  assert (H : str_in AddHelpers.marker doc_library = true) by (vm_compute; reflexivity).
  destruct (add_helpers_second_run doc_library H) as (_ & H2 & _).
  split; [exact H |]. rewrite H2. vm_compute. reflexivity.
Defined.

(** ** A half-applied patch of add-revenue-router.py *)

(** X20: the two edits of add-revenue-router.py are independent.  On a
    server file that holds the route locator but not the two import lines
    of the import locator, and that does not import revenueRouter yet, the
    script adds the route and no import: the file it writes uses
    revenueRouter and still does not import it, and the script prints its
    success line all the same. *)
Theorem revenue_router_route_without_import (D : str) :
  str_in AddRevenueRouter.old_import D = false ->
  str_in AddRevenueRouter.old_route D = true ->
  str_in (lit "import revenueRouter") D = false ->
  AddRevenueRouter.run D =
    {| written := Some (AddRevenueRouter.route_directive D);
       printed := [[9989%N] ++ lit " Added revenue router to server.js"];
       raised := false |} /\
  str_in (lit "revenueRouter") (AddRevenueRouter.route_directive D) = true /\
  str_in (lit "import revenueRouter") (AddRevenueRouter.route_directive D) = false.
Proof.
  intros Hi Hr Hn.
  assert (Ht : AddRevenueRouter.transform D = AddRevenueRouter.route_directive D).
  { unfold AddRevenueRouter.transform; cbv zeta.
    now rewrite (replace_absent _ _ old_import_nonempty D Hi). }
  split; [unfold AddRevenueRouter.run; now rewrite Ht | split].
  - apply (str_in_trans _ AddRevenueRouter.new_route); [by_evaluation |].
    now apply replace_present; [exact old_route_nonempty |].
  - apply replace_keeps_absent; try by_evaluation;
      [exact old_route_nonempty | exact Hn].
Qed.

Lemma revenue_router_route_without_import_witness :
  str_in AddRevenueRouter.old_import doc_server = false /\
  str_in AddRevenueRouter.old_route doc_server = true /\
  str_in (lit "import revenueRouter") doc_server = false /\
  written (AddRevenueRouter.run doc_server)
  = Some (lit "const app = express();" ++ nl ++ AddRevenueRouter.new_route ++ nl).
Proof.
  assert (Hi : str_in AddRevenueRouter.old_import doc_server = false)
    by (vm_compute; reflexivity).
  assert (Hr : str_in AddRevenueRouter.old_route doc_server = true)
    by (vm_compute; reflexivity).
  assert (Hn : str_in (lit "import revenueRouter") doc_server = false)
    by (vm_compute; reflexivity).
  destruct (revenue_router_route_without_import doc_server Hi Hr Hn) as [Hrun _].
  split; [exact Hi | split; [exact Hr | split; [exact Hn |]]].
  rewrite Hrun. vm_compute. reflexivity.
Defined.

(** ** add-suggestions-state.py on the text of the file *)

Lemma new_line_length : length AddSuggestionsState.new_line = 64.
Proof. by_evaluation. Qed.

(** X11: whatever the file holds, add-suggestions-state.py writes the text
    it read with the 64 characters of the new line put in at one place,
    after the first 574 lines or at the end of a shorter file: nothing of
    the text read is lost, changed or moved. *)
Theorem suggestions_keeps_text (D : str) :
  let before := writelines (firstn 574 (readlines D)) in
  let after := writelines (skipn 574 (readlines D)) in
  D = before ++ after /\
  AddSuggestionsState.transform D
  = before ++ AddSuggestionsState.new_line ++ after /\
  length (AddSuggestionsState.transform D) = length D + 64.
Proof.
  intros before after. subst before after.
  assert (HD : D = writelines (firstn 574 (readlines D))
                   ++ writelines (skipn 574 (readlines D))).
  { unfold writelines. rewrite <- concat_app, firstn_skipn.
    symmetry. apply writelines_readlines. }
  assert (HT : AddSuggestionsState.transform D
               = writelines (firstn 574 (readlines D))
                 ++ AddSuggestionsState.new_line
                 ++ writelines (skipn 574 (readlines D))).
  { unfold AddSuggestionsState.transform, AddSuggestionsState.transform_lines,
      AddSuggestionsState.insert_at. apply writelines_insert. }
  split; [exact HD | split; [exact HT |]].
  rewrite HT. rewrite HD at 3. rewrite !length_app, new_line_length. lia.
Qed.

(** X12: on a file of more than 574 lines, the file that
    add-suggestions-state.py writes, read again, has one line more; its
    line 574 is the new line, the lines before are the old ones and the old
    lines from 574 on follow it. *)
Theorem suggestions_reread_inserted (D : str) :
  574 < length (readlines D) ->
  readlines (AddSuggestionsState.transform D)
  = firstn 574 (readlines D) ++ AddSuggestionsState.new_line
    :: skipn 574 (readlines D) /\
  length (readlines (AddSuggestionsState.transform D)) = S (length (readlines D)) /\
  nth_error (readlines (AddSuggestionsState.transform D)) 574
  = Some AddSuggestionsState.new_line.
Proof.
  intros H. rewrite (reread_after_insert D H).
  unfold AddSuggestionsState.transform_lines, AddSuggestionsState.insert_at.
  split; [reflexivity | split].
  - apply list_insert_length.
  - apply list_insert_at. lia.
Qed.

Lemma suggestions_reread_inserted_witness :
  574 < length (readlines doc_600_lines) /\
  length (readlines (AddSuggestionsState.transform doc_600_lines)) = 601 /\
  nth_error (readlines (AddSuggestionsState.transform doc_600_lines)) 574
  = Some AddSuggestionsState.new_line.
Proof.
  assert (Hlen : length (readlines doc_600_lines) = 600) by (vm_compute; reflexivity).
  assert (H : 574 < length (readlines doc_600_lines)) by (rewrite Hlen; lia).
  destruct (suggestions_reread_inserted _ H) as (_ & H1 & H2).
  split; [exact H | split; [| exact H2]].
  rewrite H1, Hlen. reflexivity.
Defined.

Lemma list_insert_twice {A : Type} (i : nat) (x : A) (l : list A) :
  i <= length l ->
  list_insert i x (list_insert i x l) = firstn i l ++ x :: x :: skipn i l.
Proof.
  intros H. unfold list_insert.
  assert (Hf : length (firstn i l) = i) by (rewrite length_firstn; lia).
  rewrite firstn_app, skipn_app, Hf, Nat.sub_diag.
  rewrite (firstn_all2 (firstn i l)), (skipn_all2 (firstn i l)) by lia.
  simpl. now rewrite app_nil_r.
Qed.

(** X13: the script has no guard: on a file of more than 574 lines a second
    run inserts the line again, and the file then holds the new line at
    lines 574 and 575, in front of the old line 574. *)
Theorem suggestions_second_run (D : str) :
  574 < length (readlines D) ->
  let D2 := AddSuggestionsState.transform (AddSuggestionsState.transform D) in
  readlines D2
  = firstn 574 (readlines D) ++ AddSuggestionsState.new_line
    :: AddSuggestionsState.new_line :: skipn 574 (readlines D) /\
  length (readlines D2) = S (S (length (readlines D))).
Proof.
  intros H D2. subst D2.
  assert (H1 : readlines (AddSuggestionsState.transform D)
               = list_insert 574 AddSuggestionsState.new_line (readlines D))
    by exact (reread_after_insert D H).
  assert (H2 : 574 < length (readlines (AddSuggestionsState.transform D)))
    by (rewrite H1, list_insert_length; lia).
  rewrite (reread_after_insert _ H2), H1.
  unfold AddSuggestionsState.transform_lines, AddSuggestionsState.insert_at.
  split.
  - apply list_insert_twice. lia.
  - now rewrite !list_insert_length.
Qed.

Lemma suggestions_second_run_witness :
  574 < length (readlines doc_600_lines) /\
  length (readlines (AddSuggestionsState.transform
                       (AddSuggestionsState.transform doc_600_lines))) = 602.
Proof.
  assert (Hlen : length (readlines doc_600_lines) = 600) by (vm_compute; reflexivity).
  assert (H : 574 < length (readlines doc_600_lines)) by (rewrite Hlen; lia).
  destruct (suggestions_second_run _ H) as (_ & H2).
  split; [exact H |]. rewrite H2, Hlen. reflexivity.
Defined.

(** X14: on a file of fewer than 575 lines the new line goes to the end of
    the text.  Read again, the file has the old lines and the new line
    after them when the text was empty or ended with a line break;
    otherwise it has as many lines as before, and the new text continues
    the last one. *)
Theorem suggestions_short_file (D : str) :
  length (readlines D) < 575 ->
  readlines (AddSuggestionsState.transform D)
  = if terminated D
    then readlines D ++ [AddSuggestionsState.new_line]
    else removelast (readlines D)
         ++ [last (readlines D) [] ++ AddSuggestionsState.new_line].
Proof.
  intros H. destruct (terminated D) eqn:Ht.
  - now apply reread_after_append.
  - rewrite (proj2 (transform_past_end D H)).
    apply readlines_app_unterminated; [exact Ht | apply readlines_new_line].
Qed.

Lemma suggestions_short_file_witness :
  length (readlines doc_two_lines) < 575 /\
  readlines (AddSuggestionsState.transform doc_two_lines)
  = [lit "import React from 'react';" ++ nl;
     lit "export default App;" ++ AddSuggestionsState.new_line].
Proof.
  assert (H : length (readlines doc_two_lines) < 575) by (vm_compute; lia).
  split; [exact H |].
  rewrite (suggestions_short_file _ H). vm_compute. reflexivity.
Defined.

(** ** The matcher *)

Lemma m_group (A : Type) (i : nat) (body : list Re.node) (s : str)
    (cs : Re.captures) (k : str -> Re.captures -> option A) :
  Re.m A (Re.Group i body) s cs k
  = m_seq A body s cs
      (fun s1 cs1 => k s1 ((i, firstn (length s - length s1) s) :: cs1)).
Proof. reflexivity. Qed.

Lemma lead_group (i : nat) (body : list Re.node) :
  lead (Re.Group i body) = lead_seq body.
Proof. reflexivity. Qed.

Lemma lit_caps_group (i : nat) (body : list Re.node) (cs : Re.captures) :
  lit_caps (Re.Group i body) cs
  = (i, fst (lead_seq body)) :: lit_caps_seq body cs.
Proof. reflexivity. Qed.

Lemma backtrack_some (A : Type) (lo n : nat) (s : str)
    (k : str -> option A) (res : A) :
  Re.backtrack A lo n s k = Some res -> exists j, k (skipn j s) = Some res.
Proof.
  induction n as [|n IH]; cbn [Re.backtrack]; intros H.
  - destruct (k (skipn 0 s)) eqn:E; [| discriminate].
    injection H as <-. now exists 0.
  - destruct (k (skipn (S n) s)) eqn:E.
    + injection H as <-. now exists (S n).
    + destruct (n <? lo); [discriminate | now apply IH].
Qed.

(** Every match of a node is made of the leading text of the node, of
    nothing more when the node is literal, and leaves a suffix of the
    subject to the rest of the pattern. *)
Lemma m_lead (A : Type) :
  forall (r : Re.node) (s : str) (cs : Re.captures)
         (k : str -> Re.captures -> option A) (res : A),
    Re.m A r s cs k = Some res ->
    exists mid s1 cs1,
      s = fst (lead r) ++ mid ++ s1 /\
      (snd (lead r) = true -> mid = []) /\
      k s1 cs1 = Some res.
Proof.
  fix IH 1. intros r. destruct r as [c | c | c | i body]; intros s cs k res H.
  - simpl in H. destruct s as [|x s]; [discriminate |].
    destruct (Re.mem c x) eqn:Em; [| discriminate].
    destruct c as [a | | l]; simpl lead.
    + simpl in Em. apply N.eqb_eq in Em as ->.
      exists [], s, cs. now repeat split.
    + exists [x], s, cs. repeat split; [discriminate | exact H].
    + exists [x], s, cs. repeat split; [discriminate | exact H].
  - simpl in H. apply backtrack_some in H as [j Hj].
    exists (firstn j s), (skipn j s), cs. simpl lead.
    repeat split; [now rewrite firstn_skipn | discriminate | exact Hj].
  - simpl in H. destruct (Nat.eqb (Re.span c s) 0); [discriminate |].
    apply backtrack_some in H as [j Hj].
    exists (firstn j s), (skipn j s), cs. simpl lead.
    repeat split; [now rewrite firstn_skipn | discriminate | exact Hj].
  - rewrite m_group in H. rewrite lead_group.
    assert (Hseq : forall (k' : str -> Re.captures -> option A) s cs,
               m_seq A body s cs k' = Some res ->
               exists mid s1 cs1,
                 s = fst (lead_seq body) ++ mid ++ s1 /\
                 (snd (lead_seq body) = true -> mid = []) /\
                 k' s1 cs1 = Some res).
    { clear H. induction body as [|r' rs' IHb]; intros k' s0 cs0 H.
      - exists [], s0, cs0. now repeat split.
      - cbn [m_seq] in H.
        apply IH in H as (mid & s2 & cs2 & Hs & Hf & Hk).
        apply IHb in Hk as (mid' & s1 & cs1 & Hs' & Hf' & Hk').
        cbn [lead_seq]. destruct (lead r') as [l [|]]; cbn [fst snd] in *.
        + rewrite (Hf eq_refl) in Hs. simpl in Hs.
          destruct (lead_seq rs') as [l' full]; cbn [fst snd] in *.
          exists mid', s1, cs1. repeat split; [| exact Hf' | exact Hk'].
          now rewrite Hs, Hs', <- !app_assoc.
        + exists (mid ++ fst (lead_seq rs') ++ mid'), s1, cs1.
          repeat split; [| discriminate | exact Hk'].
          now rewrite Hs, Hs', <- !app_assoc. }
    apply Hseq in H as (mid & s1 & cs1 & Hs & Hf & Hk).
    eexists mid, s1, _. repeat split; [exact Hs | exact Hf | exact Hk].
Qed.

Lemma m_seq_lead (A : Type) (rs : list Re.node) :
  forall (s : str) (cs : Re.captures)
         (k : str -> Re.captures -> option A) (res : A),
    m_seq A rs s cs k = Some res ->
    exists mid s1 cs1,
      s = fst (lead_seq rs) ++ mid ++ s1 /\ k s1 cs1 = Some res.
Proof.
  induction rs as [|r rs IH]; intros s cs k res H.
  - now exists [], s, cs.
  - cbn [m_seq] in H.
    apply m_lead in H as (mid & s2 & cs2 & Hs & Hf & Hk).
    apply IH in Hk as (mid' & s1 & cs1 & Hs' & Hk').
    cbn [lead_seq]. destruct (lead r) as [l [|]]; cbn [fst snd] in *.
    + rewrite (Hf eq_refl) in Hs. simpl in Hs.
      destruct (lead_seq rs) as [l' full]; cbn [fst snd] in *.
      exists mid', s1, cs1. split; [| exact Hk'].
      now rewrite Hs, Hs', <- !app_assoc.
    + exists (mid ++ fst (lead_seq rs) ++ mid'), s1, cs1. split; [| exact Hk'].
      now rewrite Hs, Hs', <- !app_assoc.
Qed.

Lemma firstn_matched (a b : str) :
  firstn (length (a ++ b) - length b) (a ++ b) = a.
Proof.
  rewrite length_app, Nat.add_sub, firstn_app, Nat.sub_diag, firstn_all.
  simpl. apply app_nil_r.
Qed.

(** A group captures the text it matched. *)
Lemma m_group_lead (A : Type) (i : nat) (body : list Re.node) (s : str)
    (cs : Re.captures) (k : str -> Re.captures -> option A) (res : A) :
  Re.m A (Re.Group i body) s cs k = Some res ->
  exists matched s1 cs1,
    s = matched ++ s1 /\
    startswith (fst (lead_seq body)) matched = true /\
    k s1 ((i, matched) :: cs1) = Some res.
Proof.
  intros H. rewrite m_group in H.
  apply m_seq_lead in H as (mid & s1 & cs1 & Hs & Hk).
  exists (fst (lead_seq body) ++ mid), s1, cs1.
  assert (Hs' : s = (fst (lead_seq body) ++ mid) ++ s1)
    by now rewrite <- app_assoc.
  clear Hs. subst s. rewrite firstn_matched in Hk.
  repeat split; [apply startswith_app | exact Hk].
Qed.

(** A match found by the search: the subject is the text before it, the
    match and the text after it. *)
Lemma search_from_some (r : Re.node) (s : str) :
  forall before b cs rest,
    Re.search_from r before s = Some (b, cs, rest) ->
    exists bf t,
      b = rev before ++ bf /\ s = bf ++ t /\
      Re.match_here r t = Some (cs, rest).
Proof.
  induction s as [|c s IH]; intros before b cs rest H; cbn [Re.search_from] in H.
  - destruct (Re.match_here r []) as [[cs' rest'] |] eqn:E; [| discriminate].
    injection H as <- <- <-. exists [], []. now rewrite app_nil_r.
  - destruct (Re.match_here r (c :: s)) as [[cs' rest'] |] eqn:E.
    + injection H as <- <- <-. exists [], (c :: s). now rewrite app_nil_r.
    + apply IH in H as (bf & t & Hb & Hs & Hm).
      exists (c :: bf), t. repeat split; [| now rewrite Hs | exact Hm].
      rewrite Hb. simpl. now rewrite <- app_assoc.
Qed.

(** The search stops at the first position where the pattern matches:
    at no earlier position of the subject is there a match. *)
Lemma search_from_first (r : Re.node) (s : str) :
  forall before b cs rest,
    Re.search_from r before s = Some (b, cs, rest) ->
    exists bf t,
      b = rev before ++ bf /\ s = bf ++ t /\
      Re.match_here r t = Some (cs, rest) /\
      forall b' t', s = b' ++ t' -> length b' < length bf ->
                    Re.match_here r t' = None.
Proof.
  induction s as [|c s IH]; intros before b cs rest H; cbn [Re.search_from] in H.
  - destruct (Re.match_here r []) as [[cs' rest'] |] eqn:E; [| discriminate].
    injection H as <- <- <-. exists [], [].
    rewrite app_nil_r.
    split; [reflexivity | split; [reflexivity | split; [exact E |]]].
    intros b' t' _ Hl. simpl in Hl. lia.
  - destruct (Re.match_here r (c :: s)) as [[cs' rest'] |] eqn:E.
    + injection H as <- <- <-. exists [], (c :: s).
      rewrite app_nil_r.
      split; [reflexivity | split; [reflexivity | split; [exact E |]]].
      intros b' t' _ Hl. simpl in Hl. lia.
    + apply IH in H as (bf & t & Hb & Hs & Hm & Hfirst).
      exists (c :: bf), t.
      split; [rewrite Hb; simpl; now rewrite <- app_assoc |].
      split; [now rewrite Hs |]. split; [exact Hm |].
      intros b' t' Hsplit Hl. destruct b' as [|c' b'].
      * simpl in Hsplit. now rewrite <- Hsplit.
      * injection Hsplit as _ Hsplit. apply (Hfirst b' t' Hsplit).
        simpl in Hl. lia.
Qed.

(** When the search finds nothing, the pattern matches at no position of
    the subject, the end of the subject included. *)
Lemma search_from_nowhere (r : Re.node) (s : str) :
  forall before,
    Re.search_from r before s = None ->
    forall b' t', s = b' ++ t' -> Re.match_here r t' = None.
Proof.
  induction s as [|c s IH]; intros before H b' t' Hsplit;
    cbn [Re.search_from] in H.
  - destruct (Re.match_here r []) as [[cs rest] |] eqn:E; [discriminate |].
    symmetry in Hsplit. apply app_eq_nil in Hsplit as [_ ->]. exact E.
  - destruct (Re.match_here r (c :: s)) as [[cs rest] |] eqn:E; [discriminate |].
    destruct b' as [|c' b'].
    + simpl in Hsplit. now rewrite <- Hsplit.
    + injection Hsplit as _ Hsplit. exact (IH _ H b' t' Hsplit).
Qed.

(** No match without the leading text of the pattern. *)
Lemma search_from_none (r : Re.node) (l : str) (s : str) :
  (forall t cs rest, Re.match_here r t = Some (cs, rest) -> startswith l t = true) ->
  str_in l s = false ->
  forall before, Re.search_from r before s = None.
Proof.
  intros Hl. induction s as [|c s IH]; intros Hin before; cbn [Re.search_from].
  - destruct (Re.match_here r []) as [[cs rest] |] eqn:E; [| reflexivity].
    apply Hl in E. simpl in Hin. now rewrite E in Hin.
  - apply str_in_cons_false in Hin as [H1 H2].
    destruct (Re.match_here r (c :: s)) as [[cs rest] |] eqn:E.
    + apply Hl in E. congruence.
    + now apply IH.
Qed.

(** *** The pattern of edit-chat.py *)

Lemma chat_pattern_compiled :
  Re.compile EditChat.pattern
  = Re.Ok (Re.Group 0 [Re.Group 1 chat_body], 1).
Proof. by_evaluation. Qed.

Lemma chat_body_lead :
  fst (lead_seq chat_body) = lit "savedConversation = {".
Proof. by_evaluation. Qed.

(** A match of the pattern begins with its literal text, and groups 0 and 1
    both hold the whole match. *)
Lemma chat_match_here (t : str) (cs : Re.captures) (rest : str) :
  Re.match_here (Re.Group 0 [Re.Group 1 chat_body]) t = Some (cs, rest) ->
  exists matched,
    t = matched ++ rest /\
    startswith (lit "savedConversation = {") matched = true /\
    Re.group 1 cs = matched.
Proof.
  unfold Re.match_here. rewrite m_group. cbn [m_seq]. intros H.
  apply m_group_lead in H as (matched & s1 & cs1 & Ht & Hl & Hk).
  injection Hk as <- <-. exists matched. rewrite chat_body_lead in Hl.
  split; [exact Ht | split; [exact Hl | reflexivity]].
Qed.

(** ** edit-chat.py, block by block *)

Lemma chat_sub_search (content : str) :
  Re.sub EditChat.pattern EditChat.replacement content 1
  = Re.Ok match Re.search (Re.Group 0 [Re.Group 1 chat_body]) content with
          | None => content
          | Some (before, cs, rest) =>
              before ++ (Re.group 1 cs ++ skipn 2 EditChat.replacement) ++ rest
          end.
Proof.
  rewrite (sub_compiled _ _ content 1 _ 1 _ chat_pattern_compiled replacement_template)
    by by_evaluation.
  rewrite sub_loop_once.
  destruct (Re.search _ content) as [[[before cs] rest]|]; [| reflexivity].
  unfold Re.expand. cbn [flat_map].
  fold (Re.expand (map Re.TLit (skipn 2 EditChat.replacement)) cs).
  now rewrite expand_literals.
Qed.

Lemma chat_search_none (content : str) :
  str_in (lit "savedConversation = {") content = false ->
  Re.search (Re.Group 0 [Re.Group 1 chat_body]) content = None.
Proof.
  intros H. unfold Re.search.
  apply (search_from_none _ (lit "savedConversation = {")); [| exact H].
  intros t cs rest Hm.
  apply chat_match_here in Hm as (matched & -> & Hl & _).
  now apply startswith_app_l.
Qed.

(** X15: the regular-expression edit of edit-chat.py never raises.  When
    the pattern matches somewhere in the content, the result is the content
    with the text of the template put in right after the first match: the
    pattern matches at no earlier position, the match begins with
    [savedConversation = {], and the text before and after the match is
    kept.  When the pattern matches nowhere, and so whenever the content
    does not hold [savedConversation = {], the result is the content
    itself. *)
Theorem edit_chat_block_after_first_match (content : str) :
  let r := Re.Group 0 [Re.Group 1 chat_body] in
  let block := skipn 2 EditChat.replacement in
  Re.compile EditChat.pattern = Re.Ok (r, 1) /\
  exists X,
    Re.sub EditChat.pattern EditChat.replacement content 1 = Re.Ok X /\
    ((exists bf m t, content = bf ++ m ++ t /\ matches_at r m t) ->
     exists before matched rest,
       content = before ++ matched ++ rest /\
       matches_at r matched rest /\
       (forall b' t', content = b' ++ t' -> length b' < length before ->
                      Re.match_here r t' = None) /\
       startswith (lit "savedConversation = {") matched = true /\
       X = before ++ matched ++ block ++ rest /\
       length X = length content + length block) /\
    ((forall b' t', content = b' ++ t' -> Re.match_here r t' = None) ->
     X = content) /\
    (str_in (lit "savedConversation = {") content = false -> X = content).
Proof.
  intros r block. split; [exact chat_pattern_compiled |].
  rewrite chat_sub_search. fold r block. eexists. split; [reflexivity |].
  destruct (Re.search r content) as [[[before cs] rest]|] eqn:E.
  - unfold Re.search in E.
    apply search_from_first in E as (bf & t & Hb & Hc & Hm & Hfirst).
    simpl in Hb. subst before.
    pose proof Hm as Hm'.
    apply chat_match_here in Hm' as (matched & Ht & Hl & Hg).
    split; [| split].
    + intros _. exists bf, matched, rest.
      split; [now rewrite Hc, Ht |].
      split; [exists cs; now rewrite <- Ht |].
      split; [exact Hfirst |]. split; [exact Hl |].
      rewrite Hg. split; [now rewrite <- !app_assoc |].
      rewrite Hc, Ht, !length_app. lia.
    + intros Hnone. rewrite (Hnone bf t Hc) in Hm. discriminate.
    + intros Hin. pose proof (chat_search_none content Hin) as Hs.
      unfold Re.search in Hs.
      pose proof (search_from_nowhere _ _ _ Hs bf t Hc) as Hn.
      fold r in Hn. rewrite Hn in Hm. discriminate.
  - split; [| split; reflexivity || (intros _; reflexivity)].
    intros (bf & m & t & Hc & cs & Hm).
    unfold Re.search in E.
    rewrite (search_from_nowhere _ _ _ E bf (m ++ t) Hc) in Hm. discriminate.
Qed.

(** On the sample endpoint the pattern matches, and the block is put in
    after the match, which runs to the end of the blanks that follow the
    second closing brace. *)
Example edit_chat_block_sample :
  exists before rest,
    let matched :=
      lit "savedConversation = { id: conversationId, messages: all }" ++ nl
      ++ lit "    }" ++ nl ++ lit "    " in
    doc_chat = before ++ matched ++ rest /\
    startswith (lit "res.json({") rest = true /\
    (exists cs, Re.match_here (Re.Group 0 [Re.Group 1 chat_body])
                  (matched ++ rest) = Some (cs, rest)) /\
    Re.sub EditChat.pattern EditChat.replacement doc_chat 1
    = Re.Ok (before ++ matched ++ skipn 2 EditChat.replacement ++ rest).
Proof.
  exists (firstn 219 doc_chat), (skipn 287 doc_chat). cbv zeta.
  split; [by_evaluation | split; [by_evaluation | split]].
  - eexists. vm_compute. reflexivity.
  - by_evaluation.
Qed.

(** X16: when the content holds the import name and not [autoCreatedTodos],
    and holds neither [savedConversation = {] nor the response block,
    edit-chat.py finds nothing to edit: it writes the file back as it read
    it, and still prints that it added the code and modified the
    response. *)
Theorem edit_chat_reports_edits_not_made (D : str) :
  str_in (lit "createTodosFromAIRecommendations") D = true ->
  str_in (lit "autoCreatedTodos") D = false ->
  str_in (lit "savedConversation = {") D = false ->
  str_in EditChat.old_response D = false ->
  EditChat.run D =
    {| written := Some D;
       printed :=
         [ [9989%N] ++ lit " Import already exists";
           [9989%N] ++ lit " Added auto-todo creation code";
           [9989%N] ++ lit " Modified response to include autoCreatedTodos";
           nl ++ [9989%N]
           ++ lit " Successfully modified chat.js to add auto-todo creation!" ];
       raised := false |}.
Proof.
  intros Himp Htodo Hpat Hresp.
  unfold EditChat.run, EditChat.add_import. rewrite Himp.
  unfold EditChat.add_todos. rewrite Htodo, chat_sub_search.
  rewrite (chat_search_none D Hpat). cbn [Re.bind].
  now rewrite (replace_absent _ _ old_response_nonempty D Hresp).
Qed.

Lemma edit_chat_reports_edits_not_made_witness :
  str_in (lit "createTodosFromAIRecommendations") doc_comment_only = true /\
  str_in (lit "autoCreatedTodos") doc_comment_only = false /\
  str_in (lit "savedConversation = {") doc_comment_only = false /\
  str_in EditChat.old_response doc_comment_only = false /\
  written (EditChat.run doc_comment_only) = Some doc_comment_only /\
  length (printed (EditChat.run doc_comment_only)) = 4.
Proof.
  assert (H1 : str_in (lit "createTodosFromAIRecommendations") doc_comment_only = true)
    by (vm_compute; reflexivity).
  assert (H2 : str_in (lit "autoCreatedTodos") doc_comment_only = false)
    by (vm_compute; reflexivity).
  assert (H3 : str_in (lit "savedConversation = {") doc_comment_only = false)
    by (vm_compute; reflexivity).
  assert (H4 : str_in EditChat.old_response doc_comment_only = false)
    by (vm_compute; reflexivity).
  rewrite (edit_chat_reports_edits_not_made _ H1 H2 H3 H4).
  exact (conj H1 (conj H2 (conj H3 (conj H4 (conj eq_refl eq_refl))))).
Defined.

(** *** The import line *)

Lemma str_split_nonempty (sep : char) (s : str) : str_split sep s <> [].
Proof.
  destruct s as [|c s]; simpl; [discriminate |].
  destruct (N.eqb c sep); [discriminate |].
  destruct (str_split sep s); discriminate.
Qed.

(** The lines that [split] gives hold no separator. *)
Lemma str_split_lines (sep : char) (s : str) :
  Forall (fun l => existsb (N.eqb sep) l = false) (str_split sep s).
Proof.
  induction s as [|c s IH]; simpl; [repeat constructor |].
  destruct (N.eqb c sep) eqn:Ec; [now constructor |].
  destruct (str_split sep s) as [|l ls]; [repeat constructor; simpl |].
  - now rewrite N.eqb_sym, Ec.
  - inversion IH as [|? ? Hl Hls]; subst. constructor; [| exact Hls].
    simpl. now rewrite N.eqb_sym, Ec, Hl.
Qed.

(** Joining the lines of a text gives the text back. *)
Lemma join_split (sep : char) (s : str) :
  str_join [sep] (str_split sep s) = s.
Proof.
  induction s as [|c s IH]; [reflexivity |].
  simpl. destruct (N.eqb c sep) eqn:Ec.
  - apply N.eqb_eq in Ec as ->.
    pose proof (str_split_nonempty sep s) as Hne.
    destruct (str_split sep s) as [|l ls]; [congruence |].
    change (str_join [sep] ([] :: l :: ls)) with ([] ++ [sep] ++ str_join [sep] (l :: ls)).
    now rewrite IH.
  - destruct (str_split sep s) as [|l ls] eqn:E.
    + exfalso. now apply (str_split_nonempty sep s).
    + destruct ls as [|l' ls]; simpl in IH |- *; now rewrite <- IH.
Qed.

(** Splitting a text joined from lines without separator gives the lines
    back. *)
Lemma split_join (sep : char) (ls : list str) :
  ls <> [] ->
  Forall (fun l => existsb (N.eqb sep) l = false) ls ->
  str_split sep (str_join [sep] ls) = ls.
Proof.
  induction ls as [|l ls IH]; [congruence | intros _ Hall].
  inversion Hall as [|? ? Hl Hls]; subst.
  assert (Hline : forall rest,
             str_split sep (l ++ rest)
             = match str_split sep rest with
               | [] => [l]
               | x :: xs => (l ++ x) :: xs
               end).
  { clear - Hl. induction l as [|c l IHl]; intros rest.
    - simpl. destruct (str_split sep rest) eqn:E; [| reflexivity].
      exfalso. now apply (str_split_nonempty sep rest).
    - simpl in Hl. apply orb_false_iff in Hl as [Hc Hl].
      simpl. rewrite N.eqb_sym, Hc, (IHl Hl rest).
      destruct (str_split sep rest); reflexivity. }
  destruct ls as [|l' ls].
  - simpl. rewrite <- (app_nil_r l) at 1. rewrite Hline. simpl.
    now rewrite app_nil_r.
  - change (str_join [sep] (l :: l' :: ls))
      with (l ++ sep :: str_join [sep] (l' :: ls)).
    assert (Hsep : forall t, str_split sep (sep :: t) = [] :: str_split sep t)
      by (intros t; simpl; now rewrite N.eqb_refl).
    rewrite Hline, Hsep, IH by (discriminate || assumption).
    now rewrite app_nil_r.
Qed.

Lemma Forall_take {A : Type} (P : A -> Prop) (n : nat) (l : list A) :
  Forall P l -> Forall P (firstn n l).
Proof.
  intros H. revert n. induction H as [|x l Hx Hl IH]; intros [|n]; simpl;
    constructor; auto.
Qed.

Lemma Forall_drop {A : Type} (P : A -> Prop) (n : nat) (l : list A) :
  Forall P l -> Forall P (skipn n l).
Proof.
  intros H. revert n. induction H as [|x l Hx Hl IH]; intros [|n]; simpl;
    try constructor; auto.
Qed.

(** X17: when the content does not hold the import name, edit-chat.py puts
    the import line in as line 2 of the content, counting from 0 and
    splitting at line breaks, or as its last line when the content has
    fewer than two lines; the other lines keep their text and order, and
    the content gets longer by the import line and one line break. *)
Theorem edit_chat_import_line (D : str) :
  str_in (lit "createTodosFromAIRecommendations") D = false ->
  let D1 := fst (EditChat.add_import D) in
  str_split 10 D1 = list_insert 2 EditChat.import_line (str_split 10 D) /\
  (2 <= length (str_split 10 D) ->
   nth_error (str_split 10 D1) 2 = Some EditChat.import_line) /\
  (length (str_split 10 D) < 2 ->
   D1 = D ++ nl ++ EditChat.import_line) /\
  str_in (lit "createTodosFromAIRecommendations") D1 = true.
Proof.
  intros H D1. subst D1.
  assert (HD1 : fst (EditChat.add_import D)
                = str_join nl (list_insert 2 EditChat.import_line (str_split 10 D))).
  { unfold EditChat.add_import. now rewrite H. }
  assert (Hsplit : str_split 10 (fst (EditChat.add_import D))
                   = list_insert 2 EditChat.import_line (str_split 10 D)).
  { rewrite HD1. apply (split_join 10).
    - unfold list_insert. destruct (firstn 2 (str_split 10 D)); discriminate.
    - unfold list_insert. apply Forall_app. split.
      + apply Forall_take, str_split_lines.
      + constructor; [by_evaluation | apply Forall_drop, str_split_lines]. }
  split; [exact Hsplit | split; [| split]].
  - intros Hlen. rewrite Hsplit. now apply list_insert_at.
  - intros Hlen. rewrite HD1, list_insert_past_end by lia.
    pose proof (join_split 10 D) as Hj.
    pose proof (str_split_nonempty 10 D) as Hne.
    destruct (str_split 10 D) as [|l [|l' ls]]; [congruence | | simpl in Hlen; lia].
    simpl in Hj. subst l. reflexivity.
  - apply add_import_present.
Qed.

Lemma edit_chat_import_line_witness :
  str_in (lit "createTodosFromAIRecommendations") doc_chat = false /\
  nth_error (str_split 10 (fst (EditChat.add_import doc_chat))) 2
  = Some EditChat.import_line /\
  length (str_split 10 (fst (EditChat.add_import doc_chat)))
  = S (length (str_split 10 doc_chat)).
Proof.
  assert (H : str_in (lit "createTodosFromAIRecommendations") doc_chat = false)
    by (vm_compute; reflexivity).
  destruct (edit_chat_import_line doc_chat H) as (H1 & H2 & _).
  split; [exact H | split].
  - apply H2. vm_compute. lia.
  - rewrite H1. apply list_insert_length.
Defined.

(** ** Literal patterns *)

Lemma startswith_app_split (a b s : str) :
  startswith (a ++ b) s
  = startswith a s && startswith b (skipn (length a) s).
Proof.
  revert s; induction a as [|x a IH]; intros s; [reflexivity |].
  destruct s as [|y s]; [reflexivity |].
  simpl. rewrite IH. now rewrite andb_assoc.
Qed.

Lemma startswith_skipn (l s : str) :
  startswith l s = true -> s = l ++ skipn (length l) s.
Proof.
  intros H. apply startswith_iff in H as [t ->].
  now rewrite skipn_app, skipn_all, Nat.sub_diag.
Qed.

(** A node that matches only its literal text matches exactly where the
    subject begins with that text. *)
Lemma m_literal (A : Type) :
  forall (r : Re.node), snd (lead r) = true ->
  forall (s : str) (cs : Re.captures) (k : str -> Re.captures -> option A),
    Re.m A r s cs k
    = if startswith (fst (lead r)) s
      then k (skipn (length (fst (lead r))) s) (lit_caps r cs)
      else None.
Proof.
  fix IH 1. intros r. destruct r as [c | c | c | i body]; intros Hfull s cs k.
  - destruct c as [a | | l]; try discriminate.
    destruct s as [|x s]; [reflexivity |].
    simpl. rewrite andb_true_r. reflexivity.
  - discriminate.
  - discriminate.
  - rewrite lead_group in *. rewrite m_group, lit_caps_group.
    assert (Hseq : forall s0 cs0 (k' : str -> Re.captures -> option A),
               m_seq A body s0 cs0 k'
               = if startswith (fst (lead_seq body)) s0
                 then k' (skipn (length (fst (lead_seq body))) s0)
                         (lit_caps_seq body cs0)
                 else None).
    { clear s cs k. induction body as [|r' rs' IHb]; intros s0 cs0 k';
        [reflexivity |].
      cbn [m_seq lit_caps_seq]. cbn [lead_seq] in Hfull |- *.
      pose proof (IH r') as IHr.
      destruct (lead r') as [l [|]]; [| discriminate].
      destruct (lead_seq rs') as [l' full]. cbn [fst snd] in *.
      rewrite (IHr eq_refl), startswith_app_split.
      destruct (startswith l s0); [| reflexivity].
      rewrite (IHb Hfull). cbn [andb].
      now rewrite length_app, Nat.add_comm, <- skipn_skipn. }
    rewrite Hseq.
    destruct (startswith (fst (lead_seq body)) s) eqn:E; [| reflexivity].
    apply startswith_skipn in E.
    remember (skipn (length (fst (lead_seq body))) s) as u eqn:Hu.
    clear Hu. subst s. now rewrite firstn_matched.
Qed.

Section LiteralSearch.

Variables (r : Re.node) (l : str) (caps : Re.captures).
Hypothesis l_nonempty : l <> [].
Hypothesis r_literal :
  forall t, Re.match_here r t
            = if startswith l t then Some (caps, skipn (length l) t) else None.

(** The search finds the first occurrence of the text, which is also where
    [str.replace] makes its first replacement. *)
Lemma search_literal (s : str) :
  forall before,
    (str_in l s = false /\ Re.search_from r before s = None) \/
    (exists bf rest,
       s = bf ++ l ++ rest /\
       Re.search_from r before s = Some (rev before ++ bf, caps, rest) /\
       forall new, str_replace s l new = bf ++ new ++ str_replace rest l new).
Proof.
  induction s as [|c s IH]; intros before; cbn [Re.search_from]; rewrite r_literal.
  - left. destruct l; [congruence | now split].
  - destruct (startswith l (c :: s)) eqn:E.
    + right. exists [], (skipn (length l) (c :: s)).
      pose proof (startswith_skipn _ _ E) as Hs.
      split; [exact Hs | split; [now rewrite app_nil_r |]].
      intros new. rewrite Hs at 1. now apply replace_hit.
    + destruct (IH (c :: before)) as [[Hin Hnone] | (bf & rest & Hs & Hsome & Hrep)].
      * left. split; [| exact Hnone]. simpl. now rewrite E, Hin.
      * right. exists (c :: bf), rest. split; [now rewrite Hs |].
        split; [rewrite Hsome; simpl; now rewrite <- app_assoc |].
        intros new. rewrite replace_miss by assumption. now rewrite Hrep.
Qed.

Hypothesis group0 : Re.group 0 caps = l.

(** Replacing all matches is [str.replace] with the expansion of the
    template. *)
Lemma sub_loop_literal (t : list Re.titem) :
  forall fuel s, length s < fuel ->
    Re.sub_loop fuel r t None s = str_replace s l (Re.expand t caps).
Proof.
  induction fuel as [|fuel IH]; intros s Hlen; [lia |].
  cbn [Re.sub_loop]. unfold Re.search.
  destruct (search_literal s []) as [[Hin Hnone] | (bf & rest & Hs & Hsome & Hrep)].
  - rewrite Hnone. symmetry. now apply replace_absent.
  - rewrite Hsome, group0. cbn [rev app option_map].
    destruct l as [|x l'] eqn:El; [congruence |]. rewrite <- El in *.
    rewrite Hrep, IH; [reflexivity |].
    rewrite Hs, !length_app, El in Hlen. simpl in Hlen. lia.
Qed.

End LiteralSearch.

Lemma literal_rule_sub (p t o n : str) :
  literal_rule (p, t) = Some (o, n) ->
  o <> [] /\ forall s, Re.sub p t s 0 = Re.Ok (str_replace s o n).
Proof.
  unfold literal_rule. cbn [fst snd].
  destruct (Re.compile p) as [[r g] |] eqn:Hp; [| discriminate].
  destruct r as [| | | i body]; try discriminate.
  destruct i as [|i]; [| discriminate].
  destruct (Re.parse_template t) as [tt |] eqn:Ht; [| discriminate].
  destruct (snd (lead_seq body)) eqn:Hfull; [| discriminate].
  destruct (Re.refs_ok g tt) eqn:Hr; [| discriminate].
  destruct (Nat.eqb (length (fst (lead_seq body))) 0) eqn:Hl; [discriminate |].
  cbn [andb negb]. intros [= <- <-].
  assert (Hne : fst (lead_seq body) <> []).
  { intros E. rewrite E in Hl. discriminate. }
  split; [exact Hne |]. intros s.
  rewrite (sub_compiled p t s 0 _ g tt Hp Ht Hr).
  f_equal. apply sub_loop_literal; [exact Hne | | reflexivity | lia].
  intros u. unfold Re.match_here.
  rewrite (m_literal _ (Re.Group 0 body) Hfull). reflexivity.
Qed.

(** A loop of such substitutions is a sequence of literal replacements. *)
Lemma apply_replacements_literal (rs : list (str * str)) (pairs : list (str * str)) :
  map literal_rule rs = map Some pairs ->
  forall D, RenameComponents.apply_replacements rs D = Re.Ok (replace_each pairs D).
Proof.
  revert pairs; induction rs as [|[p t] rs IH]; intros [|[o n] pairs] H D;
    try discriminate; [reflexivity |].
  simpl in H. injection H as Hpt Hrest.
  destruct (literal_rule_sub p t o n Hpt) as [_ Hsub].
  cbn [RenameComponents.apply_replacements]. rewrite Hsub. cbn [Re.bind].
  now rewrite (IH pairs Hrest).
Qed.

(** ** The declarations loop of rename-components.py *)

Lemma declarations_literal :
  map literal_rule RenameComponents.replacements = map Some declaration_renames.
Proof. by_evaluation. Qed.

(** X18: the loop over [replacements] in rename-components.py never raises
    and is a sequence of seven literal replacements: each replaces a
    declaration that is written right after its line number and a colon,
    and keeps the line number. *)
Theorem rename_declarations_literal (D : str) :
  RenameComponents.apply_replacements RenameComponents.replacements D
  = Re.Ok (replace_each declaration_renames D).
Proof. apply apply_replacements_literal, declarations_literal. Qed.

Example rename_declarations_listing :
  RenameComponents.apply_replacements RenameComponents.replacements doc_listing
  = Re.Ok (str_join nl
             [ lit "1999:const CompetitorKeywordCard = styled.div`";
               lit "2000:  padding: 1rem;";
               lit "2025:const CompetitorKeywordBadge = styled.span`";
               [] ]).
Proof. by_evaluation. Qed.

(** X19: on a source that holds none of the seven declarations with its
    line number in front, as a source file without a listing's line
    numbers, the loop renames nothing. *)
Theorem rename_declarations_need_line_numbers (D : str) :
  forallb (fun on => negb (str_in (fst on) D)) declaration_renames = true ->
  RenameComponents.apply_replacements RenameComponents.replacements D = Re.Ok D.
Proof.
  intros H.
  rewrite (apply_replacements_literal _ _ declarations_literal). f_equal.
  unfold replace_each.
  assert (Hne : Forall (fun on : str * str => fst on <> []) declaration_renames)
    by (repeat constructor; discriminate).
  revert H Hne. generalize declaration_renames.
  induction l as [|[o n] l IH]; intros H Hne; [reflexivity |].
  simpl in H. apply andb_true_iff in H as [Ho Hl].
  inversion Hne as [|? ? Hno Hnl]; subst.
  cbn [fold_left fst snd].
  rewrite replace_absent; [now apply IH | exact Hno |].
  now apply negb_true_iff in Ho.
Qed.

Lemma rename_declarations_need_line_numbers_witness :
  forallb (fun on => negb (str_in (fst on) doc_dashboard)) declaration_renames = true /\
  str_in (lit "const CompetitorCard = styled.div`") doc_dashboard = true /\
  RenameComponents.apply_replacements RenameComponents.replacements doc_dashboard
  = Re.Ok doc_dashboard.
Proof.
  assert (H : forallb (fun on => negb (str_in (fst on) doc_dashboard))
                declaration_renames = true) by (vm_compute; reflexivity).
  split; [exact H | split; [vm_compute; reflexivity |]].
  exact (rename_declarations_need_line_numbers doc_dashboard H).
Defined.

